(** * controller.c: the batch scheduler of the DRAM controller

    A shallow embedding of [scheduler] (src/controller.c) and the properties
    of its two grouping passes: the row aliaser (lines 56-79) and the bank
    conflict grouper (lines 90-111), followed by the scheduling step
    (lines 121-123), which prints its banner and nothing else. *)

From stdpp Require Import list strings.

(** ** Constants (controller.c, lines 4-17) *)

Definition QUEUESIZE : nat := 100.
Definition BATCHSIZE : nat := 5.

Definition tRCD : Z := 14.     (* ACT to READ *)
Definition tCL : Z := 14.      (* READ to data burst start *)
Definition tRAS : Z := 28.     (* ACT to PRE *)
Definition tRP : Z := 14.      (* PRE duration *)
Definition tRTP : Z := 8.      (* READ to PRE *)
Definition tRRD_sg : Z := 4.   (* ACT to ACT same group *)
Definition tRRD_dg : Z := 4.   (* ACT to ACT diff group *)
Definition tFAW : Z := 16.     (* 1st ACT to 5th ACT *)
Definition tRDRD_sg : Z := 7.  (* READ to READ same group *)
Definition tRDRD_dg : Z := 4.  (* READ to READ diff group *)

(** ** Memory

    A C array is a list of cells; a cell that was never written holds [None].
    [load] and [store] fail ([None]) where the C program would leave defined
    behaviour: an index outside the array, or a read of a cell that was never
    written. *)

Abbreviation array A := (list (option A)) (only parsing).

Definition alloc {A : Type} (n : nat) : array A := replicate n None.

Definition load {A : Type} (a : array A) (i : nat) : option A :=
  match a !! i with
  | Some (Some x) => Some x
  | _ => None
  end.

Definition store {A : Type} (a : array A) (i : nat) (x : A) : option (array A) :=
  if decide (i < length a) then Some (<[i := Some x]> a) else None.

(** [for (int i = lo; i < lo + n; i++) body], for a body that does not break. *)
Fixpoint for_loop {St : Type} (body : nat → St → option St) (i n : nat) (s : St)
  : option St :=
  match n with
  | 0 => Some s
  | S n' => s' ← body i s; for_loop body (S i) n' s'
  end.

(** ** The structures (lines 20-44)

    The three structures share field names; those of [row_request] and
    [bank_request] carry the prefixes [rr_] and [br_] here. The fields that
    carry request data are C ints that are only ever copied and compared, so
    they are integers. The counters [requests] and [id] start at 1 and grow
    by one at a time; they are natural numbers, and never exceed [BATCHSIZE]
    (see the last theorem of the file). *)

Record request := Request {
  valid : Z;
  bank_group : Z;
  bank : Z;
  row : Z;
  col : Z
}.

Record row_request := RowRequest {
  rr_valid : Z;
  rr_bank_group : Z;
  rr_bank : Z;
  rr_row : Z;
  rr_col : array Z;          (* int col[BATCHSIZE] *)
  rr_requests : nat;
  rr_id : nat
}.

Record bank_request := BankRequest {
  br_valid : Z;
  br_bank_group : Z;
  br_bank : Z;
  br_rows : array nat;       (* int rows[BATCHSIZE] *)
  br_requests : nat
}.

(** ** Row aliaser (lines 56-79) *)

(** The condition of line 60-62. *)
Definition same_row (q : request) (r : row_request) : bool :=
  bool_decide (bank_group q = rr_bank_group r)
  && bool_decide (bank q = rr_bank r)
  && bool_decide (row q = rr_row r).

(** The inner loop, lines 59-68, from index [j] with [n] slots left to look
    at. It returns [found], the array, and the number of slots it looked at. *)
Fixpoint alias_search (q : request) (ba : array row_request) (j n : nat)
  : option (bool * array row_request * nat) :=
  match n with
  | 0 => Some (false, ba, 0)
  | S n' =>
      r ← load ba j;
      if same_row q r then
        c ← store (rr_col r) (rr_requests r) (col q);
        ba' ← store ba j
                (RowRequest (rr_valid r) (rr_bank_group r) (rr_bank r) (rr_row r)
                            c (S (rr_requests r)) (rr_id r));
        Some (true, ba', 1)
      else
        '(found, ba', k) ← alias_search q ba (S j) n';
        Some (found, ba', S k)
  end.

(** The state of the outer loop: [batch_aliased], [row_counter], and the
    number of inner iterations so far. *)
Definition alias_state : Type := array row_request * nat * nat.

(** One iteration of the outer loop, lines 58-78. *)
Definition alias_body (req_batch : list request) (i : nat) (s : alias_state)
  : option alias_state :=
  let '(ba, row_counter, t) := s in
  q ← req_batch !! i;
  '(found, ba1, k) ← alias_search q ba 0 row_counter;
  if (found : bool) then Some (ba1, row_counter, t + k)
  else
    c ← store (alloc BATCHSIZE) 0 (col q);
    ba2 ← store ba1 row_counter
            (RowRequest 1 (bank_group q) (bank q) (row q) c 1 (row_counter + 1));
    Some (ba2, S row_counter, t + k).

Definition alias (req_batch : list request) : option alias_state :=
  for_loop (alias_body req_batch) 0 BATCHSIZE (alloc BATCHSIZE, 0, 0).

(** ** Bank conflict grouper (lines 90-111) *)

(** The condition of line 95-96. *)
Definition same_bank (b : bank_request) (r : row_request) : bool :=
  bool_decide (br_bank_group b = rr_bank_group r)
  && bool_decide (br_bank b = rr_bank r).

(** The inner loop, lines 94-102. *)
Fixpoint conflict_search (r : row_request) (rc : array bank_request) (j n : nat)
  : option (bool * array bank_request * nat) :=
  match n with
  | 0 => Some (false, rc, 0)
  | S n' =>
      b ← load rc j;
      if same_bank b r then
        rows ← store (br_rows b) (br_requests b) (rr_id r);
        rc' ← store rc j
                (BankRequest (br_valid b) (br_bank_group b) (br_bank b)
                             rows (S (br_requests b)));
        Some (true, rc', 1)
      else
        '(found, rc', k) ← conflict_search r rc (S j) n';
        Some (found, rc', S k)
  end.

Definition conflict_state : Type := array bank_request * nat * nat.

(** One iteration of the outer loop, lines 93-110. *)
Definition conflict_body (batch_aliased : array row_request) (i : nat)
    (s : conflict_state) : option conflict_state :=
  let '(rc, bank_counter, t) := s in
  r ← load batch_aliased i;
  '(found, rc1, k) ← conflict_search r rc 0 bank_counter;
  if (found : bool) then Some (rc1, bank_counter, t + k)
  else
    rows ← store (alloc BATCHSIZE) 0 (rr_id r);
    rc2 ← store rc1 bank_counter
            (BankRequest 1 (rr_bank_group r) (rr_bank r) rows 1);
    Some (rc2, S bank_counter, t + k).

(** [row_conflicts] is a variable-length array of [row_counter] cells
    (line 90). *)
Definition conflicts (batch_aliased : array row_request) (row_counter : nat)
  : option conflict_state :=
  for_loop (conflict_body batch_aliased) 0 row_counter (alloc row_counter, 0, 0).

(** ** Output *)

(** What one line of the "ALIASED BATCH" listing shows (lines 82-87). *)
Record RowGroup := {
  rg_id : nat;
  rg_bank_group : Z;
  rg_bank : Z;
  rg_row : Z;
  rg_columns : list Z
}.

(** What one line of the "BANK REQUESTS BATCH" listing shows (lines 114-119). *)
Record BankQueue := {
  bq_number : nat;
  bq_bank_group : Z;
  bq_bank : Z;
  bq_rows : list nat
}.

(** Lines 82-87: one line of the first listing. *)
Definition print_row (ba : array row_request) (i : nat) : option RowGroup :=
  r ← load ba i;
  cs ← mapM (load (rr_col r)) (seq 0 (rr_requests r));
  Some {| rg_id := rr_id r; rg_bank_group := rr_bank_group r;
          rg_bank := rr_bank r; rg_row := rr_row r; rg_columns := cs |}.

(** Lines 114-119: one line of the second listing. *)
Definition print_bank (rc : array bank_request) (i : nat) : option BankQueue :=
  b ← load rc i;
  rs ← mapM (load (br_rows b)) (seq 0 (br_requests b));
  Some {| bq_number := i + 1; bq_bank_group := br_bank_group b;
          bq_bank := br_bank b; bq_rows := rs |}.

(** Modelled from the spec: ScheduledCommand. The source declares no type for
    device commands and prints none; this is the spec's record (section 3),
    with [cmd_arg] the row of an ACTIVATE or PRECHARGE and the column of a
    READ. *)
Inductive kind := ACTIVATE | READ | PRECHARGE.

Record command := Command {
  cmd_kind : kind;
  cmd_bank_group : Z;
  cmd_bank : Z;
  cmd_arg : Z;
  issue_cycle : Z
}.

Inductive line :=
  | Banner (s : string)
  | RowLine (g : RowGroup)
  | BankLine (b : BankQueue)
  | CommandLine (c : command).

Record outcome := Outcome {
  batch_aliased : array row_request;
  row_counter : nat;
  row_conflicts : array bank_request;
  bank_counter : nat;
  RowGroups : list RowGroup;      (* the lines after "ALIASED BATCH" *)
  BankQueues : list BankQueue;    (* the lines after "BANK REQUESTS BATCH" *)
  schedule : list command;        (* the lines after "SCHEDULE:" *)
  steps : nat                     (* loop iterations executed *)
}.

Definition stdout (o : outcome) : list line :=
  Banner "ALIASED BATCH" :: (RowLine <$> RowGroups o)
  ++ Banner "BANK REQUESTS BATCH" :: (BankLine <$> BankQueues o)
  ++ Banner "SCHEDULE:" :: (CommandLine <$> schedule o).

(** ** The scheduler (lines 53-124)

    [steps] counts the iterations of every loop: the two outer loops, the two
    searches, and the two listings with their inner loops. *)
Definition scheduler (req_batch : list request) : option outcome :=
  '(ba, row_counter, t1) ← alias req_batch;
  rows ← mapM (print_row ba) (seq 0 row_counter);
  '(rc, bank_counter, t2) ← conflicts ba row_counter;
  banks ← mapM (print_bank rc) (seq 0 bank_counter);
  Some {| batch_aliased := ba; row_counter := row_counter;
          row_conflicts := rc; bank_counter := bank_counter;
          RowGroups := rows; BankQueues := banks;
          (* lines 121-123: the banner is printed and no command follows *)
          schedule := [];
          steps := BATCHSIZE + t1
                   + (row_counter + sum_list_with (length ∘ rg_columns) rows)
                   + row_counter + t2
                   + (bank_counter + sum_list_with (length ∘ bq_rows) banks) |}.

(** The batch of [main] (lines 128-156). *)
Definition main_batch : list request :=
  [ Request 1 0 0 1 6; Request 1 0 0 2 5; Request 1 0 0 1 3;
    Request 1 0 0 4 4; Request 1 2 1 2 2 ].

#[global] Arguments alias : simpl never.
#[global] Arguments conflicts : simpl never.
#[global] Arguments print_row : simpl never.
#[global] Arguments print_bank : simpl never.
#[global] Arguments BATCHSIZE : simpl never.
#[global] Arguments alloc : simpl never.
#[global] Arguments load : simpl never.
#[global] Arguments store : simpl never.

(** * Grouping by key, on lists

    Both passes are the same algorithm on different data: look for the first
    group with the item's key, append to it, or open a new group at the end.
    [grouped] is that algorithm on lists; the array code is shown to compute
    it below. *)

Section grouping.
Context {A K V : Type} `{!EqDecision K} (key : A → K) (val : A → V).

Definition group_add (bs : list (K * list V)) (a : A) : list (K * list V) :=
  match list_find (λ b, b.1 = key a) bs with
  | Some (j, b) => <[j := (b.1, b.2 ++ [val a])]> bs
  | None => bs ++ [(key a, [val a])]
  end.

Definition grouped (l : list A) : list (K * list V) := foldl group_add [] l.

(** Number of values held by all groups. *)
Definition held (bs : list (K * list V)) : nat :=
  sum_list_with (λ b, length b.2) bs.

(** The items the groups stand for: every value with the key of its group. *)
Definition flatten (bs : list (K * list V)) : list (K * V) :=
  b ← bs; (λ v, (b.1, v)) <$> b.2.

End grouping.

(** * Arrays that hold a list

    [enc f n l] is the array of [n] cells whose first [length l] cells hold
    the elements of [l] (cell [i] holds [f i] of the element) and whose other
    cells were never written. *)

Section encoding.
Context {A B : Type} (f : nat → A → B) (n : nat).

Definition enc (l : list A) : array B :=
  imap (λ i x, Some (f i x)) l ++ replicate (n - length l) None.

End encoding.

(** ** The arrays of the row aliaser, for a list of groups *)

Definition key3 (q : request) : Z * Z * Z := (bank_group q, bank q, row q).

Definition enc_cols : list Z → array Z := enc (λ _ c, c) BATCHSIZE.

(** The [j]-th cell of [batch_aliased] for the group [g]. *)
Definition enc_row (j : nat) (g : Z * Z * Z * list Z) : row_request :=
  RowRequest 1 g.1.1.1 g.1.1.2 g.1.2 (enc_cols g.2) (length g.2) (j + 1).

Definition enc_rows : list (Z * Z * Z * list Z) → array row_request :=
  enc enc_row BATCHSIZE.

(** ** The arrays of the bank conflict grouper, for a list of groups *)

Definition key2 (r : row_request) : Z * Z := (rr_bank_group r, rr_bank r).

Definition enc_ids : list nat → array nat := enc (λ _ x, x) BATCHSIZE.

(** A cell of [row_conflicts] for the group [b]. *)
Definition enc_bank (j : nat) (b : Z * Z * list nat) : bank_request :=
  BankRequest 1 b.1.1 b.1.2 (enc_ids b.2) (length b.2).

(** [row_conflicts], declared with [m] cells. *)
Definition enc_banks (m : nat) : list (Z * Z * list nat) → array bank_request :=
  enc enc_bank m.

(** ** The listings, for a list of groups *)

Definition view_row (n : nat) (g : Z * Z * Z * list Z) : RowGroup :=
  {| rg_id := n + 1; rg_bank_group := g.1.1.1; rg_bank := g.1.1.2;
     rg_row := g.1.2; rg_columns := g.2 |}.

Definition view_bank (n : nat) (b : Z * Z * list nat) : BankQueue :=
  {| bq_number := n + 1; bq_bank_group := b.1.1; bq_bank := b.1.2;
     bq_rows := b.2 |}.

(** The keys the two passes group by, read off a line of the first listing. *)
Definition row_key (g : RowGroup) : Z * Z * Z :=
  (rg_bank_group g, rg_bank g, rg_row g).

Definition bank_key (g : RowGroup) : Z * Z := (rg_bank_group g, rg_bank g).

Definition queue_key (b : BankQueue) : Z * Z := (bq_bank_group b, bq_bank b).

(** The row groups and bank queues of a batch, on lists. *)
Definition row_groups (batch : list request) : list (Z * Z * Z * list Z) :=
  grouped key3 col (take BATCHSIZE batch).

Definition bank_queues (rows : list RowGroup) : list (Z * Z * list nat) :=
  grouped bank_key rg_id rows.

(** The bound on [steps]: the two outer loops ([BATCHSIZE] iterations each
    at most), the two searches ([BATCHSIZE] slots per outer iteration at
    most), and the two listings (a line per group and an entry per value). *)
Definition step_bound : nat := 2 * BATCHSIZE * BATCHSIZE + 6 * BATCHSIZE.

(** * What a grouping pass has to produce

    [items] are grouped by [key] into [groups] when there is one group per
    key that occurs, the groups are in the order in which their keys first
    occur, and every group lists the values of the items with its key, all of
    them and in their order. *)

Section grouping_spec.
Context {A G K V : Type} `{!EqDecision K}.
Context (key : A → K) (val : A → V) (gkey : G → K) (gvals : G → list V).

Record grouping (items : list A) (groups : list G) : Prop := {
  grouping_NoDup : NoDup (gkey <$> groups);
  grouping_keys : ∀ k, k ∈ gkey <$> groups ↔ k ∈ key <$> items;
  grouping_order : ∀ n m g g',
    n < m → groups !! n = Some g → groups !! m = Some g' →
    ∃ i a, items !! i = Some a ∧ key a = gkey g ∧
           ∀ i' a', items !! i' = Some a' → key a' = gkey g' → i < i';
  grouping_values : ∀ g,
    g ∈ groups → gvals g = val <$> filter (λ a, key a = gkey g) items
}.

End grouping_spec.

(** The requests a listing of row groups stands for. *)
Definition listed_requests (rows : list RowGroup) : list (Z * Z * Z * Z) :=
  g ← rows; (λ c, (row_key g, c)) <$> rg_columns g.

(** A request with its [valid] field cleared. *)
Definition strip (q : request) : request :=
  Request 0 (bank_group q) (bank q) (row q) (col q).

(** Two requests for the same column of the same row of the same bank. *)
Definition same_address (q q' : request) : Prop :=
  bank_group q = bank_group q' ∧ bank q = bank q'
  ∧ row q = row q' ∧ col q = col q'.

(** * Counting commands *)

Global Instance kind_eq_dec : EqDecision kind.
Proof. solve_decision. Defined.

(** The number of commands of kind [k] in a command sequence. *)
Definition count_kind (k : kind) (cs : list command) : nat :=
  length (filter (λ c, cmd_kind c = k) cs).

(** * The batches used below *)

(** [main]'s batch with every [valid] flag cleared. *)
Definition invalid_batch : list request :=
  [ Request 0 0 0 1 6; Request 0 0 0 2 5; Request 0 0 0 1 3;
    Request 0 0 0 4 4; Request 0 2 1 2 2 ].

(** [main]'s batch with the [valid] flag of its first entry cleared. *)
Definition mixed_batch : list request :=
  [ Request 0 0 0 1 6; Request 1 0 0 2 5; Request 1 0 0 1 3;
    Request 1 0 0 4 4; Request 1 2 1 2 2 ].

(** [main]'s batch followed by a sixth valid request. *)
Definition long_batch : list request :=
  main_batch ++ [ Request 1 3 3 3 3 ].

(** [main]'s batch with a negative row, column, bank and bank group in its
    second entry. *)
Definition negative_batch : list request :=
  [ Request 1 0 0 1 6; Request 1 (-1) (-2) (-3) (-4); Request 1 0 0 1 3;
    Request 1 0 0 4 4; Request 1 2 1 2 2 ].

(** [batch_aliased] after the row aliaser ran on [main]'s batch. *)
Definition main_aliased : array row_request :=
  [ Some (RowRequest 1 0 0 1 [Some 6; Some 3; None; None; None]%Z 2 1);
    Some (RowRequest 1 0 0 2 [Some 5; None; None; None; None]%Z 1 2);
    Some (RowRequest 1 0 0 4 [Some 4; None; None; None; None]%Z 1 3);
    Some (RowRequest 1 2 1 2 [Some 2; None; None; None; None]%Z 1 4);
    None ].

Definition main_rows : list RowGroup :=
  [ {| rg_id := 1; rg_bank_group := 0; rg_bank := 0; rg_row := 1;
       rg_columns := [6; 3]%Z |};
    {| rg_id := 2; rg_bank_group := 0; rg_bank := 0; rg_row := 2;
       rg_columns := [5]%Z |};
    {| rg_id := 3; rg_bank_group := 0; rg_bank := 0; rg_row := 4;
       rg_columns := [4]%Z |};
    {| rg_id := 4; rg_bank_group := 2; rg_bank := 1; rg_row := 2;
       rg_columns := [2]%Z |} ].

Definition main_banks : list BankQueue :=
  [ {| bq_number := 1; bq_bank_group := 0; bq_bank := 0; bq_rows := [1; 2; 3] |};
    {| bq_number := 2; bq_bank_group := 2; bq_bank := 1; bq_rows := [4] |} ].

(** * The caller and the loop states

    [main] (lines 126-161) fills the global [req_batch], calls [scheduler]
    and returns 0; its result here is that status with what was printed. *)
Definition main : option (Z * list line) :=
  o ← scheduler main_batch; Some (0%Z, stdout o).

(** [batch_aliased], [row_counter] and the search count after the first [n]
    iterations of the row aliaser's outer loop (line 57). *)
Definition alias_after (req_batch : list request) (n : nat)
  : option alias_state :=
  for_loop (alias_body req_batch) 0 n (alloc BATCHSIZE, 0, 0).

(** The bank group and bank of a request. *)
Definition bank_of (q : request) : Z * Z := (bank_group q, bank q).

(** [row_conflicts], [bank_counter] and the search count after the first [n]
    iterations of the bank conflict grouper's outer loop (line 92). *)
Definition conflicts_after (batch_aliased : array row_request)
    (row_counter n : nat) : option conflict_state :=
  for_loop (conflict_body batch_aliased) 0 n (alloc row_counter, 0, 0).

(** Groups with the same key and as many values. *)
Definition same_shape {K V V' : Type} (b : K * list V) (b' : K * list V')
  : Prop :=
  b.1 = b'.1 ∧ length b.2 = length b'.2.

(** A batch of five requests for row 7 of bank 0 of bank group 0. *)
Definition one_row_batch : list request :=
  [ Request 1 0 0 7 9; Request 1 0 0 7 8; Request 1 0 0 7 9;
    Request 0 0 0 7 1; Request 1 0 0 7 2 ].

(** A batch of five requests for five different rows. *)
Definition distinct_batch : list request :=
  [ Request 1 0 0 1 6; Request 1 0 0 2 5; Request 1 0 1 1 3;
    Request 1 1 0 1 4; Request 1 2 1 2 2 ].

(** [main]'s batch with every column set to 0. *)
Definition zero_col_batch : list request :=
  [ Request 1 0 0 1 0; Request 1 0 0 2 0; Request 1 0 0 1 0;
    Request 1 0 0 4 0; Request 1 2 1 2 0 ].

(** * Loops and lists *)

Lemma for_loop_S {St : Type} (body : nat → St → option St) i n s :
  for_loop body i (S n) s = body i s ≫= for_loop body (S i) n.
Proof. done. Qed.

Lemma filter_none {A : Type} (P : A → Prop) `{!∀ x, Decision (P x)} (l : list A) :
  Forall (λ x, ¬ P x) l → filter P l = [].
Proof. induction 1 as [|x l Hx _ IH]; [done|]. by rewrite filter_cons_False. Qed.

(** * Properties of [grouped] *)

Section grouping_facts.
Context {A K V : Type} `{!EqDecision K} (key : A → K) (val : A → V).

Lemma grouped_snoc l a :
  grouped key val (l ++ [a]) = group_add key val (grouped key val l) a.
Proof. unfold grouped. by rewrite foldl_snoc. Qed.

Lemma group_add_keys bs a :
  (group_add key val bs a).*1
  = if decide (key a ∈ bs.*1) then bs.*1 else bs.*1 ++ [key a].
Proof.
  unfold group_add. destruct (list_find _ bs) as [[j b]|] eqn:Hf.
  - apply list_find_Some in Hf as (Hj & Hb & _).
    rewrite list_fmap_insert. simpl.
    rewrite list_insert_id by (by rewrite list_lookup_fmap, Hj).
    rewrite decide_True; [done|].
    rewrite <-Hb. apply list_elem_of_fmap. exists b. split; [done|].
    by eapply list_elem_of_lookup_2.
  - apply list_find_None in Hf.
    rewrite decide_False.
    + by rewrite fmap_app.
    + intros (b & Hb & Hin)%list_elem_of_fmap.
      rewrite Forall_forall in Hf. by eapply Hf.
Qed.

Lemma grouped_keys_elem l k : k ∈ (grouped key val l).*1 ↔ k ∈ key <$> l.
Proof.
  induction l as [|a l IH] using rev_ind; [done|].
  rewrite grouped_snoc, group_add_keys, fmap_app. simpl.
  case_decide as Hin; rewrite ?elem_of_app, ?list_elem_of_singleton, IH.
  - split; [tauto|]. intros [?| ->]; [done|]. by apply IH.
  - done.
Qed.

Lemma grouped_keys_NoDup l : NoDup (grouped key val l).*1.
Proof.
  induction l as [|a l IH] using rev_ind; [constructor|].
  rewrite grouped_snoc, group_add_keys.
  case_decide as Hin; [done|].
  apply NoDup_app. split_and!; [done| |apply NoDup_singleton].
  intros k Hk ->%list_elem_of_singleton. done.
Qed.

Lemma group_add_held bs a : held (group_add key val bs a) = S (held bs).
Proof.
  unfold held, group_add. destruct (list_find _ bs) as [[j b]|] eqn:Hf.
  - apply list_find_Some in Hf as (Hj & _ & _).
    apply list_elem_of_split_length in Hj as (l1 & l2 & -> & ->).
    rewrite insert_app_r_alt, Nat.sub_diag by done. simpl.
    rewrite !sum_list_with_app. simpl. rewrite length_app. simpl. lia.
  - rewrite sum_list_with_app. simpl. lia.
Qed.

Lemma grouped_held l : held (grouped key val l) = length l.
Proof.
  induction l as [|a l IH] using rev_ind; [done|].
  rewrite grouped_snoc, group_add_held, IH, length_app. simpl. lia.
Qed.

Lemma group_add_nonempty bs a :
  Forall (λ b, 0 < length b.2) bs →
  Forall (λ b, 0 < length b.2) (group_add key val bs a).
Proof.
  intros Hbs. unfold group_add. destruct (list_find _ bs) as [[j b]|] eqn:Hf.
  - apply Forall_insert; [done|]. simpl. rewrite length_app. simpl. lia.
  - apply Forall_app. split; [done|]. apply Forall_singleton. simpl. lia.
Qed.

Lemma grouped_nonempty l : Forall (λ b, 0 < length b.2) (grouped key val l).
Proof.
  induction l as [|a l IH] using rev_ind; [constructor|].
  rewrite grouped_snoc. by apply group_add_nonempty.
Qed.

Lemma held_lookup (bs : list (K * list V)) j b :
  bs !! j = Some b → length b.2 ≤ held bs.
Proof.
  intros (l1 & l2 & -> & _)%list_elem_of_split_length.
  unfold held. rewrite sum_list_with_app. simpl. lia.
Qed.

Lemma held_length (bs : list (K * list V)) :
  Forall (λ b, 0 < length b.2) bs → length bs ≤ held bs.
Proof.
  unfold held. induction 1 as [|b bs Hb _ IH]; simpl; lia.
Qed.

(** Each group holds the values of exactly the items with its key, in the
    order of the list. *)
Lemma grouped_values l n k vs :
  grouped key val l !! n = Some (k, vs) →
  vs = val <$> filter (λ a, key a = k) l.
Proof.
  revert n k vs. induction l as [|a l IH] using rev_ind; [done|].
  intros n k vs. rewrite grouped_snoc, filter_app, fmap_app.
  pose proof (grouped_keys_NoDup l) as Hnd.
  unfold group_add.
  destruct (list_find _ (grouped key val l)) as [[j b]|] eqn:Hf.
  - apply list_find_Some in Hf as (Hj & Hb & _).
    destruct (decide (j = n)) as [->|Hne].
    + rewrite list_lookup_insert_eq by (by eapply lookup_lt_Some).
      intros [= <- <-]. destruct b as [k' vs']. simpl in *.
      rewrite filter_cons_True, filter_nil by done. simpl.
      f_equal. by eapply IH.
    + rewrite list_lookup_insert_ne by done. intros Hn.
      assert (key a ≠ k) as Hk.
      { intros <-. apply Hne.
        eapply (NoDup_lookup _ j n (key a) Hnd);
          rewrite list_lookup_fmap;
          [by rewrite Hj; simpl; f_equal|by rewrite Hn]. }
      rewrite filter_cons_False, filter_nil, app_nil_r by done.
      by eapply IH.
  - apply list_find_None in Hf. intros [Hn|[_ Hn]]%lookup_app_Some.
    + assert (key a ≠ k) as Hk.
      { intros <-. rewrite Forall_forall in Hf.
        eapply (Hf _ (list_elem_of_lookup_2 _ _ _ Hn)). done. }
      rewrite filter_cons_False, filter_nil, app_nil_r by done.
      by eapply IH.
    + apply list_lookup_singleton_Some in Hn as [_ [= <- <-]].
      rewrite filter_cons_True, filter_nil by done.
      replace (filter (λ a0, key a0 = key a) l) with (@nil A); [done|].
      symmetry. apply filter_none, Forall_forall. intros a' Ha' Heq.
      assert (key a ∈ (grouped key val l).*1)
        as (b & Hb & Hin)%list_elem_of_fmap.
      { apply grouped_keys_elem, list_elem_of_fmap. eauto. }
      rewrite Forall_forall in Hf. by eapply Hf.
Qed.

(** Groups are in the order in which their keys are first seen: a group
    that comes earlier has an item before every item of a later group. *)
Lemma grouped_first_seen l n m b b' :
  n < m →
  grouped key val l !! n = Some b → grouped key val l !! m = Some b' →
  ∃ i a, l !! i = Some a ∧ key a = b.1 ∧
         ∀ i' a', l !! i' = Some a' → key a' = b'.1 → i < i'.
Proof.
  revert n m b b'. induction l as [|a l IH] using rev_ind; [done|].
  intros n m b b' Hnm. rewrite grouped_snoc.
  assert (∀ j c, grouped key val l !! j = Some c →
            ∃ i x, l !! i = Some x ∧ key x = c.1) as Hocc.
  { intros j c Hc.
    assert (c.1 ∈ key <$> l)
      as (x & -> & (i & Hi)%list_elem_of_lookup_1)%list_elem_of_fmap.
    { apply grouped_keys_elem, list_elem_of_fmap. exists c. split; [done|].
      by eapply list_elem_of_lookup_2. }
    eauto. }
  assert (∀ n m b b', n < m →
            grouped key val l !! n = Some b → grouped key val l !! m = Some b' →
            ∃ i x, (l ++ [a]) !! i = Some x ∧ key x = b.1 ∧
              ∀ i' a', (l ++ [a]) !! i' = Some a' → key a' = b'.1 → i < i')
    as Hold.
  { clear n m b b' Hnm. intros n m b b' Hnm Hn Hm.
    destruct (IH n m b b' Hnm Hn Hm) as (i & x & Hi & Hx & Hlt).
    exists i, x. split_and!; [by apply lookup_app_l_Some|done|].
    intros i' a' [Hi'|[Hge _]]%lookup_app_Some Hk; [by eapply Hlt|].
    apply lookup_lt_Some in Hi. lia. }
  unfold group_add.
  destruct (list_find _ (grouped key val l)) as [[j c]|] eqn:Hf.
  - apply list_find_Some in Hf as (Hj & Hc & _).
    assert (∀ p d,
              <[j:=(c.1, c.2 ++ [val a])]> (grouped key val l) !! p = Some d →
              ∃ d', grouped key val l !! p = Some d' ∧ d'.1 = d.1) as Hins.
    { intros p d. destruct (decide (j = p)) as [->|Hne].
      - rewrite list_lookup_insert_eq by (by eapply lookup_lt_Some).
        intros [= <-]. eauto.
      - rewrite list_lookup_insert_ne by done. eauto. }
    intros (d & Hd & <-)%Hins (d' & Hd' & <-)%Hins. by eapply Hold.
  - apply list_find_None in Hf.
    intros Hn [Hm|[Hge Hm]]%lookup_app_Some.
    + rewrite lookup_app_l in Hn by (apply lookup_lt_Some in Hm; lia).
      by eapply Hold.
    + apply list_lookup_singleton_Some in Hm as [Hm0 <-]. simpl.
      rewrite lookup_app_l in Hn by lia.
      destruct (Hocc _ _ Hn) as (i & x & Hi & Hx).
      exists i, x. split_and!; [by apply lookup_app_l_Some|done|].
      intros i' a' [Hi'|[Hge' _]]%lookup_app_Some Hk.
      * exfalso.
        assert (key a ∈ (grouped key val l).*1)
          as (e & He & Hin)%list_elem_of_fmap.
        { apply grouped_keys_elem, list_elem_of_fmap. exists a'.
          split; [done|]. by eapply list_elem_of_lookup_2. }
        rewrite Forall_forall in Hf. by eapply Hf.
      * apply lookup_lt_Some in Hi. lia.
Qed.

Lemma group_add_flatten bs a :
  flatten (group_add key val bs a) ≡ₚ flatten bs ++ [(key a, val a)].
Proof.
  unfold flatten, group_add. destruct (list_find _ bs) as [[j b]|] eqn:Hf.
  - apply list_find_Some in Hf as (Hj & Hb & _).
    apply list_elem_of_split_length in Hj as (l1 & l2 & -> & ->).
    rewrite insert_app_r_alt, Nat.sub_diag by done. simpl.
    rewrite !bind_app, !bind_cons. simpl. rewrite fmap_app, Hb. simpl.
    rewrite <-!(assoc_L (++)). do 2 f_equiv.
    by rewrite (comm (++) _ [_]).
  - by rewrite bind_app.
Qed.

Lemma grouped_flatten l :
  flatten (grouped key val l) ≡ₚ (λ a, (key a, val a)) <$> l.
Proof.
  induction l as [|a l IH] using rev_ind; [done|].
  by rewrite grouped_snoc, group_add_flatten, fmap_app, IH.
Qed.

End grouping_facts.

(** * Properties of [enc] *)

Section encoding_facts.
Context {A B : Type} (f : nat → A → B) (n : nat).

Lemma alloc_enc : alloc n = enc f n [].
Proof. unfold alloc, enc. simpl. by rewrite Nat.sub_0_r. Qed.

Lemma length_enc l : length l ≤ n → length (enc f n l) = n.
Proof.
  intros. unfold enc. rewrite length_app, length_imap, length_replicate. lia.
Qed.

Lemma lookup_enc l i :
  length l ≤ n → i < n → enc f n l !! i = Some (f i <$> l !! i).
Proof.
  intros Hl Hi. unfold enc. destruct (decide (i < length l)) as [Hlt|Hge].
  - rewrite lookup_app_l by (by rewrite length_imap).
    rewrite list_lookup_imap.
    destruct (lookup_lt_is_Some_2 l i Hlt) as [x ->]. done.
  - rewrite lookup_app_r by (rewrite length_imap; lia).
    rewrite lookup_replicate_2 by (rewrite length_imap; lia).
    by rewrite lookup_ge_None_2 by lia.
Qed.

Lemma load_enc l i : load (enc f n l) i = f i <$> l !! i.
Proof.
  unfold load, enc. destruct (decide (i < length l)) as [Hlt|Hge].
  - rewrite lookup_app_l by (by rewrite length_imap).
    rewrite list_lookup_imap.
    destruct (lookup_lt_is_Some_2 l i Hlt) as [x ->]. done.
  - rewrite (lookup_ge_None_2 l) by lia. simpl.
    rewrite lookup_app_r by (rewrite length_imap; lia).
    destruct (replicate _ _ !! _) as [c|] eqn:Hc; [|done].
    by apply lookup_replicate_1 in Hc as [-> _].
Qed.

Lemma store_enc_insert l i x y :
  length l ≤ n → l !! i = Some x →
  store (enc f n l) i (f i y) = Some (enc f n (<[i:=y]> l)).
Proof.
  intros Hl Hi. pose proof (lookup_lt_Some _ _ _ Hi) as Hlt.
  unfold store. rewrite length_enc, decide_True by lia. f_equal.
  apply list_eq. intros j. destruct (decide (j < n)) as [Hj|Hj].
  - rewrite lookup_enc by (rewrite ?length_insert; lia).
    destruct (decide (i = j)) as [->|Hne].
    + rewrite !list_lookup_insert_eq by (rewrite ?length_enc; lia). done.
    + rewrite !list_lookup_insert_ne by done. by apply lookup_enc.
  - rewrite !lookup_ge_None_2; [done|..];
      rewrite ?length_insert, length_enc; rewrite ?length_insert; lia.
Qed.

Lemma store_enc_snoc l y :
  length l < n →
  store (enc f n l) (length l) (f (length l) y) = Some (enc f n (l ++ [y])).
Proof.
  intros Hl. unfold store. rewrite length_enc, decide_True by lia. f_equal.
  apply list_eq. intros j. destruct (decide (j < n)) as [Hj|Hj].
  - rewrite lookup_enc by (rewrite ?length_app; simpl; lia).
    destruct (decide (length l = j)) as [<-|Hne].
    + rewrite list_lookup_insert_eq by (rewrite length_enc; lia).
      by rewrite lookup_app_r, Nat.sub_diag by done.
    + rewrite list_lookup_insert_ne, lookup_enc by (done || lia).
      destruct (decide (j < length l)).
      * by rewrite lookup_app_l by done.
      * by rewrite !lookup_ge_None_2 by (rewrite ?length_app; simpl; lia).
  - rewrite !lookup_ge_None_2; [done|..];
      rewrite ?length_insert, length_enc; rewrite ?length_app; simpl; lia.
Qed.

Lemma mapM_load_enc l :
  mapM (load (enc f n l)) (seq 0 (length l)) = Some (imap f l).
Proof.
  apply mapM_Some, Forall2_same_length_lookup.
  split; [by rewrite length_seq, length_imap|].
  intros i j y [-> _]%lookup_seq. simpl. rewrite list_lookup_imap, load_enc.
  done.
Qed.

End encoding_facts.

(** * The row aliaser computes [grouped], by bank group, bank and row *)

Lemma load_enc_rows gs j : load (enc_rows gs) j = enc_row j <$> gs !! j.
Proof. apply load_enc. Qed.

Lemma store_enc_cols cs c :
  length cs < BATCHSIZE →
  store (enc_cols cs) (length cs) c = Some (enc_cols (cs ++ [c])).
Proof. apply (store_enc_snoc (λ _ c, c)). Qed.

Lemma store_enc_rows_insert gs j g g' :
  length gs ≤ BATCHSIZE → gs !! j = Some g →
  store (enc_rows gs) j (enc_row j g') = Some (enc_rows (<[j:=g']> gs)).
Proof. apply store_enc_insert. Qed.

Lemma store_enc_rows_snoc gs g :
  length gs < BATCHSIZE →
  store (enc_rows gs) (length gs) (enc_row (length gs) g) = Some (enc_rows (gs ++ [g])).
Proof. apply store_enc_snoc. Qed.

Lemma same_row_enc q j g : same_row q (enc_row j g) = bool_decide (g.1 = key3 q).
Proof.
  destruct g as [[[bg b] r] cs], q as [v bg' b' r' c]. unfold same_row, key3.
  simpl. repeat case_bool_decide; simplify_eq; done.
Qed.

Lemma alias_search_enc q gs n j :
  j + n = length gs →
  held gs < BATCHSIZE →
  Forall (λ g, 0 < length g.2) gs →
  alias_search q (enc_rows gs) j n =
    match list_find (λ g, g.1 = key3 q) (drop j gs) with
    | Some (i, g) =>
        Some (true, enc_rows (<[j + i := (g.1, g.2 ++ [col q])]> gs), S i)
    | None => Some (false, enc_rows gs, n)
    end.
Proof.
  intros Hn Hheld Hne. pose proof (held_length gs Hne) as Hlen.
  revert j Hn. induction n as [|n IH]; intros j Hn.
  - rewrite drop_ge by lia. done.
  - destruct (lookup_lt_is_Some_2 gs j) as [g Hg]; [lia|].
    rewrite (drop_S _ _ _ Hg). simpl.
    rewrite load_enc_rows, Hg. simpl.
    rewrite same_row_enc. case_bool_decide as Hkey.
    + rewrite decide_True by done. simpl.
      pose proof (held_lookup _ _ _ Hg) as Hcap.
      rewrite store_enc_cols by lia. simpl.
      replace (RowRequest _ _ _ _ _ _ _)
        with (enc_row j (g.1, g.2 ++ [col q])).
      2:{ unfold enc_row. simpl. rewrite length_app. simpl.
          f_equal. lia. }
      erewrite store_enc_rows_insert by (done || lia).
      simpl. by rewrite Nat.add_0_r.
    + rewrite decide_False by done. rewrite IH by lia.
      destruct (list_find _ (drop (S j) gs)) as [[i b]|]; simpl; [|done].
      by rewrite Nat.add_succ_r.
Qed.

Lemma alias_body_enc batch i q gs t :
  batch !! i = Some q →
  held gs < BATCHSIZE →
  Forall (λ g, 0 < length g.2) gs →
  ∃ k, k ≤ length gs ∧
    alias_body batch i (enc_rows gs, length gs, t) =
      Some (enc_rows (group_add key3 col gs q),
            length (group_add key3 col gs q), t + k).
Proof.
  intros Hq Hheld Hne. pose proof (held_length gs Hne) as Hlen.
  unfold alias_body. rewrite Hq. simpl.
  rewrite (alias_search_enc q gs (length gs) 0) by done.
  rewrite drop_0. unfold group_add.
  destruct (list_find _ gs) as [[j g]|] eqn:Hf; simpl.
  - apply list_find_Some in Hf as (Hj%lookup_lt_Some & _).
    exists (S j). split; [lia|]. by rewrite length_insert.
  - exists (length gs). split; [done|].
    replace (RowRequest _ _ _ _ _ _ _)
      with (enc_row (length gs) (key3 q, [col q])) by done.
    rewrite store_enc_rows_snoc by lia. simpl.
    rewrite length_app. simpl. do 3 f_equal. lia.
Qed.

Lemma alias_loop_enc batch n : ∀ i gs t,
  i + n ≤ BATCHSIZE →
  i + n ≤ length batch →
  held gs = i →
  Forall (λ g, 0 < length g.2) gs →
  ∃ t', t' ≤ t + n * BATCHSIZE ∧
    let gs' := foldl (group_add key3 col) gs (take n (drop i batch)) in
    for_loop (alias_body batch) i n (enc_rows gs, length gs, t) =
      Some (enc_rows gs', length gs', t').
Proof.
  induction n as [|n IH]; intros i gs t Hi Hb Hheld Hne.
  - exists t. split; [lia|done].
  - destruct (lookup_lt_is_Some_2 batch i) as [q Hq]; [lia|].
    destruct (alias_body_enc batch i q gs t Hq) as (k & Hk & Hbody);
      [lia|done|].
    destruct (IH (S i) (group_add key3 col gs q) (t + k)) as (t' & Ht' & Hloop);
      [lia|lia|by rewrite group_add_held, Hheld|by apply group_add_nonempty|].
    pose proof (held_length gs Hne).
    exists t'. split; [lia|].
    rewrite (drop_S _ _ _ Hq), for_loop_S, Hbody. done.
Qed.

Lemma alias_enc batch :
  BATCHSIZE ≤ length batch →
  ∃ t, t ≤ BATCHSIZE * BATCHSIZE ∧
    let gs := grouped key3 col (take BATCHSIZE batch) in
    alias batch = Some (enc_rows gs, length gs, t).
Proof.
  intros Hb.
  destruct (alias_loop_enc batch BATCHSIZE 0 [] 0) as (t & Ht & Hloop);
    [lia|lia|done|constructor|].
  exists t. split; [lia|]. unfold alias. rewrite (alloc_enc enc_row).
  rewrite drop_0 in Hloop. exact Hloop.
Qed.

(** * The bank conflict grouper computes [grouped], by bank group and bank *)

Lemma load_enc_banks m bs j : load (enc_banks m bs) j = enc_bank j <$> bs !! j.
Proof. apply load_enc. Qed.

Lemma store_enc_ids ids x :
  length ids < BATCHSIZE →
  store (enc_ids ids) (length ids) x = Some (enc_ids (ids ++ [x])).
Proof. apply (store_enc_snoc (λ _ x, x)). Qed.

Lemma store_enc_banks_insert m bs j b b' :
  length bs ≤ m → bs !! j = Some b →
  store (enc_banks m bs) j (enc_bank j b') = Some (enc_banks m (<[j:=b']> bs)).
Proof. apply store_enc_insert. Qed.

Lemma store_enc_banks_snoc m bs b :
  length bs < m →
  store (enc_banks m bs) (length bs) (enc_bank (length bs) b)
  = Some (enc_banks m (bs ++ [b])).
Proof. apply store_enc_snoc. Qed.

Lemma same_bank_enc r j b : same_bank (enc_bank j b) r = bool_decide (b.1 = key2 r).
Proof.
  destruct b as [[bg b] ids]. unfold same_bank, key2. simpl.
  repeat case_bool_decide; simplify_eq; done.
Qed.

Lemma conflict_search_enc r m bs n j :
  j + n = length bs →
  held bs < BATCHSIZE →
  length bs ≤ m →
  conflict_search r (enc_banks m bs) j n =
    match list_find (λ b, b.1 = key2 r) (drop j bs) with
    | Some (i, b) =>
        Some (true, enc_banks m (<[j + i := (b.1, b.2 ++ [rr_id r])]> bs), S i)
    | None => Some (false, enc_banks m bs, n)
    end.
Proof.
  intros Hn Hheld Hm. revert j Hn. induction n as [|n IH]; intros j Hn.
  - rewrite drop_ge by lia. done.
  - destruct (lookup_lt_is_Some_2 bs j) as [b Hb]; [lia|].
    rewrite (drop_S _ _ _ Hb). simpl.
    rewrite load_enc_banks, Hb. simpl.
    rewrite same_bank_enc. case_bool_decide as Hkey.
    + rewrite decide_True by done. simpl.
      pose proof (held_lookup _ _ _ Hb) as Hcap.
      rewrite store_enc_ids by lia. simpl.
      replace (BankRequest _ _ _ _ _)
        with (enc_bank j (b.1, b.2 ++ [rr_id r])).
      2:{ unfold enc_bank. simpl. rewrite length_app. simpl.
          f_equal. lia. }
      erewrite store_enc_banks_insert by (done || lia).
      simpl. by rewrite Nat.add_0_r.
    + rewrite decide_False by done. rewrite IH by lia.
      destruct (list_find _ (drop (S j) bs)) as [[i b']|]; simpl; [|done].
      by rewrite Nat.add_succ_r.
Qed.

Lemma conflict_body_enc ba i r m bs t :
  load ba i = Some r →
  held bs < BATCHSIZE →
  held bs < m →
  Forall (λ b, 0 < length b.2) bs →
  ∃ k, k ≤ length bs ∧
    conflict_body ba i (enc_banks m bs, length bs, t) =
      Some (enc_banks m (group_add key2 rr_id bs r),
            length (group_add key2 rr_id bs r), t + k).
Proof.
  intros Hr Hheld Hm Hne. pose proof (held_length bs Hne) as Hlen.
  unfold conflict_body. rewrite Hr. simpl.
  rewrite (conflict_search_enc r m bs (length bs) 0) by (done || lia).
  rewrite drop_0. unfold group_add.
  destruct (list_find _ bs) as [[j b]|] eqn:Hf; simpl.
  - apply list_find_Some in Hf as (Hj%lookup_lt_Some & _).
    exists (S j). split; [lia|]. by rewrite length_insert.
  - exists (length bs). split; [done|].
    replace (BankRequest _ _ _ _ _)
      with (enc_bank (length bs) (key2 r, [rr_id r])) by done.
    rewrite store_enc_banks_snoc by lia. simpl.
    rewrite length_app. simpl. do 3 f_equal. lia.
Qed.

Lemma conflict_loop_enc ba rs m n : ∀ i bs t,
  (∀ j, j < length rs → load ba j = rs !! j) →
  i + n ≤ length rs →
  i + n ≤ m →
  m ≤ BATCHSIZE →
  held bs = i →
  Forall (λ b, 0 < length b.2) bs →
  ∃ t', t' ≤ t + n * BATCHSIZE ∧
    let bs' := foldl (group_add key2 rr_id) bs (take n (drop i rs)) in
    for_loop (conflict_body ba) i n (enc_banks m bs, length bs, t) =
      Some (enc_banks m bs', length bs', t').
Proof.
  induction n as [|n IH]; intros i bs t Hba Hrs Hm HB Hheld Hne.
  - exists t. split; [lia|done].
  - destruct (lookup_lt_is_Some_2 rs i) as [r Hr]; [lia|].
    destruct (conflict_body_enc ba i r m bs t) as (k & Hk & Hbody);
      [by rewrite Hba by lia|lia|lia|done|].
    destruct (IH (S i) (group_add key2 rr_id bs r) (t + k)) as (t' & Ht' & Hloop);
      [done|lia|lia|done|by rewrite group_add_held, Hheld
      |by apply group_add_nonempty|].
    pose proof (held_length bs Hne).
    exists t'. split; [lia|].
    rewrite (drop_S _ _ _ Hr), for_loop_S, Hbody. done.
Qed.

Lemma conflicts_list ba rs :
  (∀ j, j < length rs → load ba j = rs !! j) →
  length rs ≤ BATCHSIZE →
  ∃ t, t ≤ BATCHSIZE * BATCHSIZE ∧
    let bs := grouped key2 rr_id rs in
    conflicts ba (length rs) = Some (enc_banks (length rs) bs, length bs, t).
Proof.
  intros Hba Hrs.
  destruct (conflict_loop_enc ba rs (length rs) (length rs) 0 [] 0)
    as (t & Ht & Hloop); [done..|constructor|].
  exists t. split; [nia|]. unfold conflicts. rewrite (alloc_enc enc_bank).
  rewrite drop_0, take_ge in Hloop by done.
  exact Hloop.
Qed.

Lemma conflicts_enc gs :
  length gs ≤ BATCHSIZE →
  ∃ t, t ≤ BATCHSIZE * BATCHSIZE ∧
    let bs := grouped key2 rr_id (imap enc_row gs) in
    conflicts (enc_rows gs) (length gs) =
      Some (enc_banks (length gs) bs, length bs, t).
Proof.
  intros Hgs.
  destruct (conflicts_list (enc_rows gs) (imap enc_row gs)) as (t & Ht & Hc).
  - intros j _. by rewrite load_enc_rows, list_lookup_imap.
  - by rewrite length_imap.
  - rewrite length_imap in Hc. eauto.
Qed.

(** * The listings and the whole call *)

Lemma imap_snd {A : Type} (l : list A) : imap (λ _ x, x) l = l.
Proof.
  apply list_eq. intros i. rewrite list_lookup_imap. by destruct (l !! i).
Qed.

Lemma sum_list_with_imap {A B : Type} (f : B → nat) (h : A → nat)
    (g : nat → A → B) (l : list A) :
  (∀ i x, f (g i x) = h x) →
  sum_list_with f (imap g l) = sum_list_with h l.
Proof.
  revert g. induction l as [|x l IH]; intros g Hg; [done|].
  simpl. rewrite Hg. f_equal. apply IH. intros i y. apply Hg.
Qed.

Lemma print_rows_enc gs :
  mapM (print_row (enc_rows gs)) (seq 0 (length gs)) = Some (imap view_row gs).
Proof.
  apply mapM_Some, Forall2_same_length_lookup.
  split; [by rewrite length_seq, length_imap|].
  intros i j y [-> Hi]%lookup_seq. simpl.
  destruct (lookup_lt_is_Some_2 gs i Hi) as [g Hg].
  rewrite list_lookup_imap, Hg. intros [= <-].
  unfold print_row. rewrite load_enc_rows, Hg. simpl.
  unfold enc_cols. rewrite mapM_load_enc, imap_snd. done.
Qed.

Lemma print_banks_enc m bs :
  mapM (print_bank (enc_banks m bs)) (seq 0 (length bs)) = Some (imap view_bank bs).
Proof.
  apply mapM_Some, Forall2_same_length_lookup.
  split; [by rewrite length_seq, length_imap|].
  intros i j y [-> Hi]%lookup_seq. simpl.
  destruct (lookup_lt_is_Some_2 bs i Hi) as [b Hb].
  rewrite list_lookup_imap, Hb. intros [= <-].
  unfold print_bank. rewrite load_enc_banks, Hb. simpl.
  unfold enc_ids. rewrite mapM_load_enc, imap_snd. done.
Qed.

Lemma group_add_ext {A A' K V : Type} `{!EqDecision K}
    (key : A → K) (val : A → V) (key' : A' → K) (val' : A' → V) bs a a' :
  key a = key' a' → val a = val' a' →
  group_add key val bs a = group_add key' val' bs a'.
Proof. intros Hk Hv. unfold group_add. by rewrite Hk, Hv. Qed.

Lemma grouped_ext {A A' K V : Type} `{!EqDecision K}
    (key : A → K) (val : A → V) (key' : A' → K) (val' : A' → V) l l' :
  Forall2 (λ a a', key a = key' a' ∧ val a = val' a') l l' →
  grouped key val l = grouped key' val' l'.
Proof.
  unfold grouped. generalize (@nil (K * list V)).
  intros bs H. revert bs. induction H as [|a a' l l' [Hk Hv] _ IH]; intros bs.
  - done.
  - simpl. rewrite (group_add_ext key val key' val' bs a a' Hk Hv). apply IH.
Qed.

Lemma scheduler_enc batch :
  BATCHSIZE ≤ length batch →
  ∃ t, t ≤ step_bound ∧
    let gs := row_groups batch in
    let bs := bank_queues (imap view_row gs) in
    scheduler batch =
      Some {| batch_aliased := enc_rows gs; row_counter := length gs;
              row_conflicts := enc_banks (length gs) bs;
              bank_counter := length bs;
              RowGroups := imap view_row gs;
              BankQueues := imap view_bank bs;
              schedule := [];
              steps := t |}.
Proof.
  intros Hb. cbv zeta.
  remember (row_groups batch) as gs eqn:Egs.
  remember (bank_queues (imap view_row gs)) as bs eqn:Ebs.
  assert (held gs = BATCHSIZE) as Hheld.
  { rewrite Egs. unfold row_groups. rewrite grouped_held, length_take. lia. }
  assert (length gs ≤ BATCHSIZE) as Hgs.
  { rewrite <-Hheld, Egs. apply held_length, grouped_nonempty. }
  assert (bs = grouped key2 rr_id (imap enc_row gs)) as Hbs.
  { rewrite Ebs. apply grouped_ext, Forall2_same_length_lookup.
    split; [by rewrite !length_imap|].
    intros i g g'. rewrite !list_lookup_imap.
    destruct (gs !! i) as [x|]; [|done]. by intros [= <-] [= <-]. }
  assert (held bs = length gs) as Hheldb.
  { rewrite Ebs. unfold bank_queues. by rewrite grouped_held, length_imap. }
  assert (length bs ≤ length gs) as Hlenb.
  { rewrite <-Hheldb, Ebs. apply held_length, grouped_nonempty. }
  destruct (alias_enc batch Hb) as (t1 & Ht1 & Halias).
  destruct (conflicts_enc gs Hgs) as (t2 & Ht2 & Hconf).
  unfold row_groups in Egs. rewrite <-Egs in Halias.
  rewrite <-Hbs in Hconf. cbv zeta in Halias, Hconf.
  clear Egs Ebs Hbs.
  eexists. split; last first.
  { unfold scheduler. rewrite Halias. simpl.
    rewrite print_rows_enc. simpl. rewrite Hconf. simpl.
    rewrite print_banks_enc. simpl. reflexivity. }
  rewrite (sum_list_with_imap _ (λ g, length g.2)) by done.
  rewrite (sum_list_with_imap _ (λ b, length b.2)) by done.
  fold (held gs). fold (held bs). unfold step_bound, BATCHSIZE in *. nia.
Qed.

(** * Properties of [grouping] *)

Section grouping_spec_facts.
Context {A G K V : Type} `{!EqDecision K}.
Context (key : A → K) (val : A → V) (gkey : G → K) (gvals : G → list V).

Lemma grouped_grouping (view : nat → K * list V → G) l :
  (∀ n b, gkey (view n b) = b.1) →
  (∀ n b, gvals (view n b) = b.2) →
  grouping key val gkey gvals l (imap view (grouped key val l)).
Proof.
  intros Hk Hv.
  assert (gkey <$> imap view (grouped key val l) = (grouped key val l).*1)
    as Hkeys.
  { apply list_eq. intros i. rewrite !list_lookup_fmap, list_lookup_imap.
    destruct (grouped key val l !! i); simpl; [by rewrite Hk|done]. }
  assert (∀ n g, imap view (grouped key val l) !! n = Some g →
            ∃ b, grouped key val l !! n = Some b ∧ gkey g = b.1 ∧ gvals g = b.2)
    as Hview.
  { intros n g. rewrite list_lookup_imap.
    destruct (grouped key val l !! n) as [b|]; [|done].
    intros [= <-]. eauto. }
  split.
  - rewrite Hkeys. apply grouped_keys_NoDup.
  - intros k. rewrite Hkeys. apply grouped_keys_elem.
  - intros n m g g' Hnm (b & Hb & -> & _)%Hview (b' & Hb' & -> & _)%Hview.
    by eapply grouped_first_seen.
  - intros g (n & (b & Hb & -> & ->)%Hview)%list_elem_of_lookup_1.
    destruct b as [k vs]. by eapply grouped_values.
Qed.

(** Two items are listed by the same group exactly when their keys agree. *)
Lemma grouping_same items groups a a' :
  grouping key val gkey gvals items groups → a ∈ items → a' ∈ items →
  (∃ g, g ∈ groups ∧ gkey g = key a ∧ gkey g = key a'
        ∧ val a ∈ gvals g ∧ val a' ∈ gvals g)
  ↔ key a = key a'.
Proof.
  intros [_ Hkeys _ Hvals] Ha Ha'. split.
  - intros (g & _ & <- & <- & _). done.
  - intros Heq.
    assert (key a ∈ gkey <$> groups) as (g & Hg & Hin)%list_elem_of_fmap.
    { apply Hkeys, list_elem_of_fmap. eauto. }
    exists g. rewrite (Hvals g Hin). split_and!; [done|done|congruence|..].
    + apply list_elem_of_fmap. exists a. split; [done|].
      by apply list_elem_of_filter.
    + apply list_elem_of_fmap. exists a'. split; [done|].
      apply list_elem_of_filter. split; [congruence|done].
Qed.

(** Every item is listed by a group with its key, and by one only. *)
Lemma grouping_listed items groups a :
  grouping key val gkey gvals items groups → a ∈ items →
  ∃ n g, groups !! n = Some g ∧ gkey g = key a ∧ val a ∈ gvals g
         ∧ ∀ n' g', groups !! n' = Some g' → gkey g' = key a → n' = n.
Proof.
  intros [Hnd Hkeys _ Hvals] Ha.
  assert (key a ∈ gkey <$> groups) as (g & Hg & Hin)%list_elem_of_fmap.
  { apply Hkeys, list_elem_of_fmap. eauto. }
  pose proof Hin as (n & Hn)%list_elem_of_lookup_1.
  exists n, g. split_and!; [done|done|..].
  - rewrite (Hvals g Hin). apply list_elem_of_fmap. exists a.
    split; [done|]. by apply list_elem_of_filter.
  - intros n' g' Hn' Hk.
    eapply (NoDup_lookup _ n' n (key a) Hnd); rewrite list_lookup_fmap.
    + by rewrite Hn'; simpl; f_equal.
    + by rewrite Hn; simpl; f_equal.
Qed.

(** Items are told apart by values that are all different. *)
Lemma NoDup_fmap_eq (items : list A) a a' :
  NoDup (val <$> items) → a ∈ items → a' ∈ items → val a = val a' → a = a'.
Proof.
  intros Hnd (i & Hi)%list_elem_of_lookup_1 (j & Hj)%list_elem_of_lookup_1 Heq.
  assert (i = j) as ->; [|congruence].
  eapply (NoDup_lookup _ i j (val a) Hnd); rewrite list_lookup_fmap.
  - by rewrite Hi.
  - by rewrite Hj; simpl; f_equal.
Qed.

(** When the values tell the items apart, a group lists the value of an
    item only if it has the item's key. *)
Lemma grouping_listed_key items groups a g :
  grouping key val gkey gvals items groups → NoDup (val <$> items) →
  a ∈ items → g ∈ groups → val a ∈ gvals g → gkey g = key a.
Proof.
  intros [_ _ _ Hvals] Hnd Ha Hg. rewrite (Hvals g Hg).
  intros (a1 & Heq & [Hk Ha1]%list_elem_of_filter)%list_elem_of_fmap.
  by rewrite (NoDup_fmap_eq items a a1 Hnd Ha Ha1 Heq).
Qed.

Lemma grouping_same_val items groups a a' :
  grouping key val gkey gvals items groups → NoDup (val <$> items) →
  a ∈ items → a' ∈ items →
  (∃ g, g ∈ groups ∧ val a ∈ gvals g ∧ val a' ∈ gvals g) ↔ key a = key a'.
Proof.
  intros Hgr Hnd Ha Ha'. split.
  - intros (g & Hg & Hv & Hv').
    rewrite <-(grouping_listed_key items groups a g) by done.
    by apply (grouping_listed_key items groups a' g).
  - intros Heq.
    destruct (proj2 (grouping_same items groups a a' Hgr Ha Ha') Heq)
      as (g & Hg & _ & _ & Hv & Hv').
    eauto.
Qed.

Lemma grouping_listed_val items groups a :
  grouping key val gkey gvals items groups → NoDup (val <$> items) →
  a ∈ items →
  ∃ n g, groups !! n = Some g ∧ gkey g = key a ∧ val a ∈ gvals g
         ∧ ∀ n' g', groups !! n' = Some g' → val a ∈ gvals g' → n' = n.
Proof.
  intros Hgr Hnd Ha.
  destruct (grouping_listed items groups a Hgr Ha)
    as (n & g & Hn & Hk & Hv & Huniq).
  exists n, g. split_and!; [done..|].
  intros n' g' Hn' Hv'. apply (Huniq n' g' Hn').
  apply (grouping_listed_key items groups a g'); try done.
  by eapply list_elem_of_lookup_2.
Qed.

Lemma grouping_nonempty items groups :
  grouping key val gkey gvals items groups → items ≠ [] → groups ≠ [].
Proof.
  intros [_ Hkeys _ _]. destruct items as [|a items]; [done|]. intros _ ->.
  assert (key a ∈ gkey <$> @nil G) as Hin
    by (apply Hkeys; simpl; left).
  by apply elem_of_nil in Hin.
Qed.

End grouping_spec_facts.

Lemma imap_bind {A B C : Type} (g : nat → A → B) (f : B → list C)
    (h : A → list C) (l : list A) :
  (∀ i x, f (g i x) = h x) → imap g l ≫= f = l ≫= h.
Proof.
  revert g. induction l as [|x l IH]; intros g Hg; [done|].
  rewrite imap_cons, !bind_cons, Hg. f_equal. apply IH. intros i y. apply Hg.
Qed.

Lemma lookup_view_row gs n g :
  imap view_row gs !! n = Some g → rg_id g = n + 1.
Proof.
  rewrite list_lookup_imap. destruct (gs !! n); [|done]. by intros [= <-].
Qed.

Lemma row_ids_NoDup gs : NoDup (rg_id <$> imap view_row gs).
Proof.
  apply NoDup_alt. intros i j x. rewrite !list_lookup_fmap.
  destruct (imap view_row gs !! i) as [g|] eqn:Hi; [|done].
  destruct (imap view_row gs !! j) as [g'|] eqn:Hj; [|done].
  apply lookup_view_row in Hi, Hj. simpl. intros [= <-] [= Heq]. lia.
Qed.

Lemma listed_requests_view gs :
  listed_requests (imap view_row gs) = flatten gs.
Proof.
  unfold listed_requests, flatten. apply imap_bind. by intros i [[[??]?]?].
Qed.

(** * The scheduler on a batch *)

Lemma row_grouping batch :
  grouping key3 col row_key rg_columns (take BATCHSIZE batch)
    (imap view_row (row_groups batch)).
Proof. apply grouped_grouping; by intros n [[[??]?]?]. Qed.

Lemma bank_grouping rows :
  grouping bank_key rg_id queue_key bq_rows rows
    (imap view_bank (bank_queues rows)).
Proof. apply grouped_grouping; by intros n [[??]?]. Qed.

(** What [scheduler] returns, in terms of [grouping]. *)
Lemma scheduler_groups batch :
  BATCHSIZE ≤ length batch →
  ∃ o, scheduler batch = Some o
    ∧ RowGroups o = imap view_row (row_groups batch)
    ∧ BankQueues o = imap view_bank (bank_queues (RowGroups o))
    ∧ grouping key3 col row_key rg_columns (take BATCHSIZE batch) (RowGroups o)
    ∧ grouping bank_key rg_id queue_key bq_rows (RowGroups o) (BankQueues o)
    ∧ schedule o = []
    ∧ steps o ≤ step_bound.
Proof.
  intros Hb. destruct (scheduler_enc batch Hb) as (t & Ht & Hs).
  eexists. split; [exact Hs|]. simpl.
  split_and!; [done|done|apply row_grouping|apply bank_grouping|done|done].
Qed.

(** A loop depends on its body at the indices it runs through only. *)
Lemma for_loop_ext {St : Type} (body body' : nat → St → option St) n : ∀ i s,
  (∀ j s', i ≤ j < i + n → body j s' = body' j s') →
  for_loop body i n s = for_loop body' i n s.
Proof.
  induction n as [|n IH]; intros i s Hext; [done|].
  rewrite !for_loop_S, Hext by lia. destruct (body' i s) as [s'|]; [|done].
  simpl. apply IH. intros j s'' Hj. apply Hext. lia.
Qed.

(** The row aliaser reads [req_batch[0 .. BATCHSIZE-1]] and nothing else. *)
Lemma alias_take batch : alias (take BATCHSIZE batch) = alias batch.
Proof.
  unfold alias. apply for_loop_ext. intros j [[ba rc] t] Hj.
  unfold alias_body. by rewrite lookup_take_lt by lia.
Qed.

Lemma scheduler_take batch :
  scheduler (take BATCHSIZE batch) = scheduler batch.
Proof. unfold scheduler. by rewrite alias_take. Qed.

Lemma alias_search_strip q ba j n :
  alias_search (strip q) ba j n = alias_search q ba j n.
Proof.
  revert j. induction n as [|n IH]; intros j; [done|].
  simpl. destruct (load ba j) as [r|]; [|done]. simpl.
  change (same_row (strip q) r) with (same_row q r).
  destruct (same_row q r); [done|]. by rewrite IH.
Qed.

Lemma alias_strip batch : alias (strip <$> batch) = alias batch.
Proof.
  unfold alias. apply for_loop_ext. intros j [[ba rc] t] _.
  unfold alias_body. rewrite list_lookup_fmap.
  destruct (batch !! j) as [q|]; [|done]. simpl.
  by rewrite alias_search_strip.
Qed.

Lemma scheduler_strip batch : scheduler (strip <$> batch) = scheduler batch.
Proof. unfold scheduler. by rewrite alias_strip. Qed.

Lemma strip_same_address b1 b2 :
  Forall2 same_address b1 b2 → strip <$> b1 = strip <$> b2.
Proof.
  induction 1 as [|q q' b1 b2 (Hg & Hb & Hr & Hc) _ IH]; [done|].
  rewrite !fmap_cons, IH. f_equal. unfold strip. by rewrite Hg, Hb, Hr, Hc.
Qed.

(** * The claims *)



(** C2. For every batch, two requests are listed by the same RowGroup
    exactly when their bank group, bank and row agree; the RowGroups are in
    the order in which their (bank group, bank, row) is first seen in the
    batch and are numbered 1, 2, ... in that order; the columns of a RowGroup
    are those of the requests with its (bank group, bank, row), in the order
    of the batch, a column repeated as often as it is requested. This holds
    of all the entries of the batch, whatever their [valid] flag. *)
Theorem row_aliaser_groups (batch : list request) :
  length batch = BATCHSIZE →
  ∃ o, scheduler batch = Some o
    ∧ grouping key3 col row_key rg_columns batch (RowGroups o)
    ∧ (∀ q q', q ∈ batch → q' ∈ batch →
         (∃ g, g ∈ RowGroups o ∧ row_key g = key3 q ∧ row_key g = key3 q'
               ∧ col q ∈ rg_columns g ∧ col q' ∈ rg_columns g)
         ↔ key3 q = key3 q')
    ∧ (∀ n g, RowGroups o !! n = Some g → rg_id g = n + 1).
Proof.
  intros Hb.
  destruct (scheduler_groups batch) as (o & Ho & Hrows & _ & Hgr & _); [lia|].
  rewrite take_ge in Hgr by lia.
  exists o. split_and!; [done|done|..].
  - intros q q' Hq Hq'. exact (grouping_same _ _ _ _ _ _ q q' Hgr Hq Hq').
  - intros n g. rewrite Hrows. apply lookup_view_row.
Qed.

Lemma row_aliaser_groups_witness :
  length main_batch = BATCHSIZE
  ∧ ∃ o, scheduler main_batch = Some o
    ∧ grouping key3 col row_key rg_columns main_batch (RowGroups o)
    ∧ (∀ q q', q ∈ main_batch → q' ∈ main_batch →
         (∃ g, g ∈ RowGroups o ∧ row_key g = key3 q ∧ row_key g = key3 q'
               ∧ col q ∈ rg_columns g ∧ col q' ∈ rg_columns g)
         ↔ key3 q = key3 q')
    ∧ (∀ n g, RowGroups o !! n = Some g → rg_id g = n + 1).
Proof.
  split; [reflexivity|]. apply (row_aliaser_groups main_batch). reflexivity.
Defined.

(** C3, as the source has it. The row aliaser never reads the [valid] flag:
    an entry whose flag is unset contributes its column to the RowGroup of
    its (bank group, bank, row) like any other entry, and no batch yields
    zero RowGroups. *)
Theorem invalid_entries_aliased (batch : list request) :
  length batch = BATCHSIZE →
  ∃ o, scheduler batch = Some o
    ∧ (∀ q, q ∈ batch → valid q = 0%Z →
         ∃ g, g ∈ RowGroups o ∧ row_key g = key3 q ∧ col q ∈ rg_columns g)
    ∧ RowGroups o ≠ [].
Proof.
  intros Hb.
  destruct (scheduler_groups batch) as (o & Ho & _ & _ & Hgr & _); [lia|].
  rewrite take_ge in Hgr by lia.
  exists o. split_and!; [done|..].
  - intros q Hq _.
    destruct (grouping_listed _ _ _ _ _ _ q Hgr Hq) as (n & g & Hn & Hk & Hc & _).
    exists g. split_and!; [by eapply list_elem_of_lookup_2|done|done].
  - apply (grouping_nonempty _ _ _ _ _ _ Hgr).
    intros ->. unfold BATCHSIZE in Hb. done.
Qed.

Lemma invalid_entries_aliased_witness :
  length invalid_batch = BATCHSIZE
  ∧ ∃ o, scheduler invalid_batch = Some o
    ∧ (∀ q, q ∈ invalid_batch → valid q = 0%Z →
         ∃ g, g ∈ RowGroups o ∧ row_key g = key3 q ∧ col q ∈ rg_columns g)
    ∧ RowGroups o ≠ [].
Proof.
  split; [reflexivity|].
  apply (invalid_entries_aliased invalid_batch). reflexivity.
Defined.

(** C3, as stated, fails: the batch whose five entries are all invalid
    yields four RowGroups, not zero. *)
Lemma invalid_batch_not_skipped :
  ∃ o, scheduler invalid_batch = Some o
    ∧ RowGroups o = main_rows ∧ length (RowGroups o) = 4.
Proof. eexists. split; [vm_compute; reflexivity|]. split; reflexivity. Qed.

(** C4. For every set of row groups held by [batch_aliased], two row groups
    are listed by the same BankQueue exactly when their bank group and bank
    agree; the BankQueues are in the order in which their (bank group, bank)
    is first seen among the row groups; each BankQueue lists the ids of its
    row groups in the order of [batch_aliased]. *)
Theorem bank_grouper_queues (ba : array row_request) (row_counter : nat)
    (rows : list RowGroup) :
  row_counter ≤ BATCHSIZE →
  mapM (print_row ba) (seq 0 row_counter) = Some rows →
  NoDup (rg_id <$> rows) →
  ∃ rc bank_counter t banks,
    conflicts ba row_counter = Some (rc, bank_counter, t)
    ∧ mapM (print_bank rc) (seq 0 bank_counter) = Some banks
    ∧ grouping bank_key rg_id queue_key bq_rows rows banks
    ∧ (∀ g g', g ∈ rows → g' ∈ rows →
         (∃ b, b ∈ banks ∧ rg_id g ∈ bq_rows b ∧ rg_id g' ∈ bq_rows b)
         ↔ bank_key g = bank_key g').
Proof.
  intros Hrc Hrows Hnd.
  apply mapM_Some in Hrows.
  assert (∃ rs, Forall2 (λ i r, load ba i = Some r) (seq 0 row_counter) rs
              ∧ Forall2 (λ r g, key2 r = bank_key g ∧ rr_id r = rg_id g) rs rows)
    as (rs & Hload & Hview).
  { clear Hnd. induction Hrows as [|i g idx gs Hi _ (rs & Hl & Hv)].
    - exists []. split; constructor.
    - unfold print_row in Hi.
      destruct (load ba i) as [r|] eqn:Hr; [|done]. simpl in Hi.
      destruct (mapM _ _) as [cs|]; [|done]. simpl in Hi.
      injection Hi as <-.
      exists (r :: rs). split; constructor; done. }
  assert (length rs = row_counter) as Hlen.
  { apply Forall2_length in Hload. by rewrite length_seq in Hload. }
  destruct (conflicts_list ba rs) as (t & _ & Hc).
  - intros j Hj.
    destruct (lookup_lt_is_Some_2 rs j Hj) as [r Hr]. rewrite Hr.
    eapply Forall2_lookup_lr in Hload; [exact Hload| |exact Hr].
    apply lookup_seq. split; [done|lia].
  - lia.
  - cbv zeta in Hc. rewrite Hlen in Hc.
    rewrite (grouped_ext key2 rr_id bank_key rg_id rs rows Hview) in Hc.
    pose proof (bank_grouping rows) as Hgr.
    eexists _, _, t, _. split_and!; [exact Hc|apply print_banks_enc|exact Hgr|].
    intros g g' Hg Hg'.
    exact (grouping_same_val _ _ _ _ _ _ g g' Hgr Hnd Hg Hg').
Qed.

Lemma bank_grouper_queues_witness :
  4 ≤ BATCHSIZE
  ∧ mapM (print_row main_aliased) (seq 0 4) = Some main_rows
  ∧ NoDup (rg_id <$> main_rows)
  ∧ ∃ rc bank_counter t banks,
      conflicts main_aliased 4 = Some (rc, bank_counter, t)
      ∧ mapM (print_bank rc) (seq 0 bank_counter) = Some banks
      ∧ grouping bank_key rg_id queue_key bq_rows main_rows banks
      ∧ (∀ g g', g ∈ main_rows → g' ∈ main_rows →
           (∃ b, b ∈ banks ∧ rg_id g ∈ bq_rows b ∧ rg_id g' ∈ bq_rows b)
           ↔ bank_key g = bank_key g').
Proof.
  assert (NoDup (rg_id <$> main_rows)) as Hnd by compute_done.
  split_and!; [vm_compute; lia|reflexivity|exact Hnd|].
  apply (bank_grouper_queues main_aliased 4 main_rows);
    [vm_compute; lia|reflexivity|exact Hnd].
Defined.

(** C5, at the batch of [main]. The two listings are those of the claim:
    four RowGroups and two BankQueues. The scheduling step then prints its
    banner and emits no command, where the claim counts 4 ACTIVATE, 5 READ
    and 4 PRECHARGE commands. *)
Theorem main_batch_outcome :
  ∃ o, scheduler main_batch = Some o
    ∧ RowGroups o = main_rows
    ∧ BankQueues o = main_banks
    ∧ schedule o = []
    ∧ stdout o = Banner "ALIASED BATCH" :: (RowLine <$> main_rows)
                 ++ Banner "BANK REQUESTS BATCH" :: (BankLine <$> main_banks)
                 ++ [Banner "SCHEDULE:"]
    ∧ count_kind ACTIVATE (schedule o) = 0
    ∧ count_kind READ (schedule o) = 0
    ∧ count_kind PRECHARGE (schedule o) = 0.
Proof. eexists. split; [vm_compute; reflexivity|]. by split_and!. Qed.

(** C6, as the source has it. Every entry of the batch, valid or not, is
    listed by exactly one RowGroup, every RowGroup by exactly one BankQueue,
    and the RowGroups list the requests of the whole batch, each as often as
    it occurs. *)
Theorem batch_partition (batch : list request) :
  length batch = BATCHSIZE →
  ∃ o, scheduler batch = Some o
    ∧ (∀ q, q ∈ batch →
         ∃ n g, RowGroups o !! n = Some g
           ∧ row_key g = key3 q ∧ col q ∈ rg_columns g
           ∧ ∀ n' g', RowGroups o !! n' = Some g' → row_key g' = key3 q →
                      n' = n)
    ∧ (∀ g, g ∈ RowGroups o →
         ∃ m b, BankQueues o !! m = Some b
           ∧ queue_key b = bank_key g ∧ rg_id g ∈ bq_rows b
           ∧ ∀ m' b', BankQueues o !! m' = Some b' → rg_id g ∈ bq_rows b' →
                      m' = m)
    ∧ listed_requests (RowGroups o) ≡ₚ (λ q, (key3 q, col q)) <$> batch.
Proof.
  intros Hb.
  destruct (scheduler_groups batch) as (o & Ho & Hrows & _ & Hgr & Hgb & _);
    [lia|].
  rewrite take_ge in Hgr by lia.
  exists o. split_and!; [done|..].
  - intros q Hq. exact (grouping_listed _ _ _ _ _ _ q Hgr Hq).
  - intros g Hg. apply (grouping_listed_val _ _ _ _ _ _ g Hgb); [|done].
    rewrite Hrows. apply row_ids_NoDup.
  - rewrite Hrows, listed_requests_view. unfold row_groups.
    rewrite take_ge by lia. apply grouped_flatten.
Qed.

Lemma batch_partition_witness :
  length mixed_batch = BATCHSIZE
  ∧ ∃ o, scheduler mixed_batch = Some o
    ∧ (∀ q, q ∈ mixed_batch →
         ∃ n g, RowGroups o !! n = Some g
           ∧ row_key g = key3 q ∧ col q ∈ rg_columns g
           ∧ ∀ n' g', RowGroups o !! n' = Some g' → row_key g' = key3 q →
                      n' = n)
    ∧ (∀ g, g ∈ RowGroups o →
         ∃ m b, BankQueues o !! m = Some b
           ∧ queue_key b = bank_key g ∧ rg_id g ∈ bq_rows b
           ∧ ∀ m' b', BankQueues o !! m' = Some b' → rg_id g ∈ bq_rows b' →
                      m' = m)
    ∧ listed_requests (RowGroups o) ≡ₚ (λ q, (key3 q, col q)) <$> mixed_batch.
Proof.
  split; [reflexivity|]. apply (batch_partition mixed_batch). reflexivity.
Defined.

(** C6, as stated, fails: the first entry of [mixed_batch] is invalid and its
    column 6 is listed by the first RowGroup, so the RowGroups do not list
    the valid requests only. *)
Lemma invalid_entry_listed :
  ∃ o, scheduler mixed_batch = Some o
    ∧ ((0, 0, 1, 6)%Z ∈ listed_requests (RowGroups o))
    ∧ ¬ listed_requests (RowGroups o)
        ≡ₚ (λ q, (key3 q, col q)) <$> filter (λ q, valid q ≠ 0%Z) mixed_batch.
Proof.
  eexists. split; [vm_compute; reflexivity|]. split.
  - vm_compute. left.
  - intros H%Permutation_length. vm_compute in H. discriminate.
Qed.

(** C7, as the source has it. The scheduler has no error result: it reads
    the first [BATCHSIZE] entries of the batch and returns; a batch of
    exactly [BATCHSIZE] entries succeeds, a longer one gives the result of
    its first [BATCHSIZE] entries, and every entry read, whatever the sign of
    its fields, is listed by a RowGroup. *)
Theorem no_error_results (batch : list request) :
  BATCHSIZE ≤ length batch →
  ∃ o, scheduler batch = Some o
    ∧ scheduler (take BATCHSIZE batch) = Some o
    ∧ ∀ q, q ∈ take BATCHSIZE batch →
        ∃ g, g ∈ RowGroups o ∧ row_key g = key3 q ∧ col q ∈ rg_columns g.
Proof.
  intros Hb.
  destruct (scheduler_groups batch Hb) as (o & Ho & _ & _ & Hgr & _).
  exists o. split_and!; [done|by rewrite scheduler_take|].
  intros q Hq.
  destruct (grouping_listed _ _ _ _ _ _ q Hgr Hq) as (n & g & Hn & Hk & Hc & _).
  exists g. split_and!; [by eapply list_elem_of_lookup_2|done|done].
Qed.

Lemma no_error_results_witness :
  BATCHSIZE ≤ length long_batch
  ∧ ∃ o, scheduler long_batch = Some o
    ∧ scheduler (take BATCHSIZE long_batch) = Some o
    ∧ ∀ q, q ∈ take BATCHSIZE long_batch →
        ∃ g, g ∈ RowGroups o ∧ row_key g = key3 q ∧ col q ∈ rg_columns g.
Proof.
  split; [vm_compute; lia|].
  apply (no_error_results long_batch). vm_compute. lia.
Defined.

(** C7, as stated, fails: a batch of six valid requests is not rejected, it
    gives the listing of its first five; and a request whose fields are all
    negative is not rejected either, it gets a RowGroup of its own. *)
Lemma oversized_and_negative_accepted :
  (∃ o, scheduler long_batch = Some o ∧ RowGroups o = main_rows)
  ∧ (∃ o, scheduler negative_batch = Some o
       ∧ RowGroups o !! 1 =
           Some {| rg_id := 2; rg_bank_group := -1; rg_bank := -2;
                   rg_row := -3; rg_columns := [-4]%Z |}).
Proof.
  split; (eexists; split; [vm_compute; reflexivity|reflexivity]).
Qed.

(** C8. A call of [scheduler] on a batch returns, after at most
    [2 * BATCHSIZE * BATCHSIZE + 6 * BATCHSIZE] loop iterations. *)
Theorem scheduler_terminates (batch : list request) :
  BATCHSIZE ≤ length batch →
  ∃ o, scheduler batch = Some o
    ∧ steps o ≤ 2 * BATCHSIZE * BATCHSIZE + 6 * BATCHSIZE.
Proof.
  intros Hb.
  destruct (scheduler_groups batch Hb) as (o & Ho & _ & _ & _ & _ & _ & Hsteps).
  by exists o.
Qed.

Lemma scheduler_terminates_witness :
  BATCHSIZE ≤ length main_batch
  ∧ ∃ o, scheduler main_batch = Some o
    ∧ steps o ≤ 2 * BATCHSIZE * BATCHSIZE + 6 * BATCHSIZE.
Proof.
  split; [vm_compute; lia|].
  apply (scheduler_terminates main_batch). vm_compute. lia.
Defined.

(** C9. Two batches whose entries agree on bank group, bank, row and column
    give the same result, arrays, listings and output, whatever their
    [valid] flags. *)
Theorem valid_flag_ignored (batch batch' : list request) :
  Forall2 same_address batch batch' →
  scheduler batch = scheduler batch'
  ∧ (RowGroups <$> scheduler batch) = (RowGroups <$> scheduler batch')
  ∧ (BankQueues <$> scheduler batch) = (BankQueues <$> scheduler batch')
  ∧ (stdout <$> scheduler batch) = (stdout <$> scheduler batch').
Proof.
  intros H%strip_same_address.
  assert (scheduler batch = scheduler batch') as ->; [|done].
  by rewrite <-(scheduler_strip batch), <-(scheduler_strip batch'), H.
Qed.

Lemma valid_flag_ignored_witness :
  Forall2 same_address main_batch invalid_batch
  ∧ scheduler main_batch = scheduler invalid_batch
  ∧ (RowGroups <$> scheduler main_batch) = (RowGroups <$> scheduler invalid_batch)
  ∧ (BankQueues <$> scheduler main_batch) = (BankQueues <$> scheduler invalid_batch)
  ∧ (stdout <$> scheduler main_batch) = (stdout <$> scheduler invalid_batch).
Proof.
  assert (Forall2 same_address main_batch invalid_batch) as H.
  { repeat constructor. }
  split; [exact H|]. apply (valid_flag_ignored main_batch invalid_batch H).
Defined.

(** The state of the two outer loops after [n] iterations. *)
Lemma alias_prefix batch n :
  n ≤ BATCHSIZE → n ≤ length batch →
  ∃ t, let gs := grouped key3 col (take n batch) in
    for_loop (alias_body batch) 0 n (alloc BATCHSIZE, 0, 0)
    = Some (enc_rows gs, length gs, t).
Proof.
  intros Hn Hb.
  destruct (alias_loop_enc batch n 0 [] 0) as (t & _ & Hloop);
    [lia|lia|done|constructor|].
  exists t. rewrite (alloc_enc enc_row). rewrite drop_0 in Hloop. exact Hloop.
Qed.

Lemma conflicts_prefix gs n :
  length gs ≤ BATCHSIZE → n ≤ length gs →
  ∃ t, let bs := grouped key2 rr_id (take n (imap enc_row gs)) in
    for_loop (conflict_body (enc_rows gs)) 0 n (alloc (length gs), 0, 0)
    = Some (enc_banks (length gs) bs, length bs, t).
Proof.
  intros Hgs Hn.
  destruct (conflict_loop_enc (enc_rows gs) (imap enc_row gs) (length gs) n 0 [] 0)
    as (t & _ & Hloop); [|rewrite length_imap; lia|lia|done|done|constructor|].
  { intros j _. by rewrite load_enc_rows, list_lookup_imap. }
  exists t. rewrite (alloc_enc enc_bank). rewrite drop_0 in Hloop. exact Hloop.
Qed.

(** C10. On every batch the call goes through without an access outside an
    array ([load] and [store] would fail). After [n] iterations of the row
    aliaser there are at most [n] RowGroups, the [i]-th with id [i+1] and at
    most [n] columns, so the next write to [batch_aliased] and to a [col]
    array is inside the array; after [n] iterations of the bank grouper there
    are at most [n] BankQueues, of at most [n] rows each. At the end there
    are at most [BATCHSIZE] RowGroups, of at most [BATCHSIZE] columns, and at
    most as many BankQueues as RowGroups, of at most [BATCHSIZE] rows. *)
Theorem scheduler_in_bounds (batch : list request) :
  BATCHSIZE ≤ length batch →
  ∃ o, scheduler batch = Some o
    ∧ (∀ n, n ≤ BATCHSIZE →
         ∃ ba rc t,
           for_loop (alias_body batch) 0 n (alloc BATCHSIZE, 0, 0)
           = Some (ba, rc, t)
           ∧ rc ≤ n ∧ length ba = BATCHSIZE
           ∧ ∀ i r, load ba i = Some r →
               i < rc ∧ rr_id r = i + 1 ∧ rr_requests r ≤ n
               ∧ length (rr_col r) = BATCHSIZE)
    ∧ (∀ n, n ≤ row_counter o →
         ∃ rc bc t,
           for_loop (conflict_body (batch_aliased o)) 0 n
             (alloc (row_counter o), 0, 0)
           = Some (rc, bc, t)
           ∧ bc ≤ n ∧ length rc = row_counter o
           ∧ ∀ j b, load rc j = Some b →
               j < bc ∧ br_requests b ≤ n ∧ length (br_rows b) = BATCHSIZE)
    ∧ row_counter o ≤ BATCHSIZE
    ∧ length (batch_aliased o) = BATCHSIZE
    ∧ (∀ i, i < row_counter o →
         ∃ r, load (batch_aliased o) i = Some r
           ∧ rr_id r = i + 1
           ∧ 1 ≤ rr_requests r ≤ BATCHSIZE
           ∧ length (rr_col r) = BATCHSIZE)
    ∧ bank_counter o ≤ row_counter o
    ∧ length (row_conflicts o) = row_counter o
    ∧ (∀ j, j < bank_counter o →
         ∃ b, load (row_conflicts o) j = Some b
           ∧ 1 ≤ br_requests b ≤ BATCHSIZE
           ∧ length (br_rows b) = BATCHSIZE).
Proof.
  intros Hb. destruct (scheduler_enc batch Hb) as (t & _ & Ho).
  cbv zeta in Ho.
  set (gs := row_groups batch) in *.
  set (bs := bank_queues (imap view_row gs)) in *.
  assert (held gs = BATCHSIZE) as Hheld.
  { unfold gs, row_groups. rewrite grouped_held, length_take. lia. }
  assert (Forall (λ g, 0 < length g.2) gs) as Hne by apply grouped_nonempty.
  assert (held bs = length gs) as Hheldb.
  { unfold bs, bank_queues. by rewrite grouped_held, length_imap. }
  assert (Forall (λ b, 0 < length b.2) bs) as Hneb by apply grouped_nonempty.
  pose proof (held_length gs Hne) as Hlen.
  pose proof (held_length bs Hneb) as Hlenb.
  eexists. split; [exact Ho|]. simpl.
  split_and!; [| |lia|apply length_enc; lia| |lia|apply length_enc; lia|].
  - intros n Hn. destruct (alias_prefix batch n) as (t' & Hloop); [lia..|].
    cbv zeta in Hloop. set (gs' := grouped key3 col (take n batch)) in *.
    assert (held gs' = n) as Hheld'.
    { unfold gs'. rewrite grouped_held, length_take. lia. }
    pose proof (held_length gs' (grouped_nonempty _ _ _)) as Hlen'.
    eexists _, _, _. split; [exact Hloop|].
    split_and!; [lia|apply length_enc; lia|].
    intros i r. rewrite load_enc_rows.
    destruct (gs' !! i) as [g|] eqn:Hg; [|done]. intros [= <-]. simpl.
    pose proof (held_lookup _ _ _ Hg). pose proof (lookup_lt_Some _ _ _ Hg).
    split_and!; [done|done|lia|apply length_enc; lia].
  - intros n Hn. destruct (conflicts_prefix gs n) as (t' & Hloop); [lia..|].
    cbv zeta in Hloop.
    set (bs' := grouped key2 rr_id (take n (imap enc_row gs))) in *.
    assert (held bs' = n) as Hheld'.
    { unfold bs'. rewrite grouped_held, length_take, length_imap. lia. }
    pose proof (held_length bs' (grouped_nonempty _ _ _)) as Hlen'.
    eexists _, _, _. split; [exact Hloop|].
    split_and!; [lia|apply length_enc; lia|].
    intros j b. rewrite load_enc_banks.
    destruct (bs' !! j) as [b'|] eqn:Hb'; [|done]. intros [= <-]. simpl.
    pose proof (held_lookup _ _ _ Hb'). pose proof (lookup_lt_Some _ _ _ Hb').
    split_and!; [done|lia|apply length_enc; lia].
  - intros i Hi. destruct (lookup_lt_is_Some_2 gs i Hi) as [g Hg].
    exists (enc_row i g). rewrite load_enc_rows, Hg. simpl.
    pose proof (held_lookup _ _ _ Hg).
    pose proof (Forall_lookup_1 _ _ _ _ Hne Hg). simpl in *.
    split_and!; [done|done|lia|lia|apply length_enc; lia].
  - intros j Hj. destruct (lookup_lt_is_Some_2 bs j Hj) as [b Hbk].
    exists (enc_bank j b). rewrite load_enc_banks, Hbk. simpl.
    pose proof (held_lookup _ _ _ Hbk).
    pose proof (Forall_lookup_1 _ _ _ _ Hneb Hbk). simpl in *.
    split_and!; [done|lia|lia|apply length_enc; lia].
Qed.

Lemma scheduler_in_bounds_witness :
  BATCHSIZE ≤ length main_batch
  ∧ ∃ o, scheduler main_batch = Some o
    ∧ (∀ n, n ≤ BATCHSIZE →
         ∃ ba rc t,
           for_loop (alias_body main_batch) 0 n (alloc BATCHSIZE, 0, 0)
           = Some (ba, rc, t)
           ∧ rc ≤ n ∧ length ba = BATCHSIZE
           ∧ ∀ i r, load ba i = Some r →
               i < rc ∧ rr_id r = i + 1 ∧ rr_requests r ≤ n
               ∧ length (rr_col r) = BATCHSIZE)
    ∧ (∀ n, n ≤ row_counter o →
         ∃ rc bc t,
           for_loop (conflict_body (batch_aliased o)) 0 n
             (alloc (row_counter o), 0, 0)
           = Some (rc, bc, t)
           ∧ bc ≤ n ∧ length rc = row_counter o
           ∧ ∀ j b, load rc j = Some b →
               j < bc ∧ br_requests b ≤ n ∧ length (br_rows b) = BATCHSIZE)
    ∧ row_counter o ≤ BATCHSIZE
    ∧ length (batch_aliased o) = BATCHSIZE
    ∧ (∀ i, i < row_counter o →
         ∃ r, load (batch_aliased o) i = Some r
           ∧ rr_id r = i + 1
           ∧ 1 ≤ rr_requests r ≤ BATCHSIZE
           ∧ length (rr_col r) = BATCHSIZE)
    ∧ bank_counter o ≤ row_counter o
    ∧ length (row_conflicts o) = row_counter o
    ∧ (∀ j, j < bank_counter o →
         ∃ b, load (row_conflicts o) j = Some b
           ∧ 1 ≤ br_requests b ≤ BATCHSIZE
           ∧ length (br_rows b) = BATCHSIZE).
Proof.
  split; [vm_compute; lia|].
  apply (scheduler_in_bounds main_batch). vm_compute. lia.
Defined.

(** * Further properties of the scheduler *)

Lemma for_loop_app {St : Type} (body : nat → St → option St) n m : ∀ i s,
  for_loop body i (n + m) s = for_loop body i n s ≫= for_loop body (i + n) m.
Proof.
  induction n as [|n IH]; intros i s.
  - simpl. by rewrite Nat.add_0_r.
  - rewrite Nat.add_succ_l, !for_loop_S. destruct (body i s) as [s'|]; [|done].
    simpl. rewrite IH. by rewrite Nat.add_succ_r.
Qed.

Lemma alias_short batch : length batch < BATCHSIZE → alias batch = None.
Proof.
  intros Hlt. unfold alias.
  replace BATCHSIZE with (length batch + S (BATCHSIZE - length batch - 1)) at 1
    by lia.
  rewrite for_loop_app.
  destruct (alias_prefix batch (length batch)) as (t & Hloop); [lia|lia|].
  cbv zeta in Hloop. rewrite Hloop. simpl.
  unfold alias_body. by rewrite lookup_ge_None_2 by lia.
Qed.

(** X1. [scheduler] reads [req_batch[0]] to [req_batch[BATCHSIZE-1]]: it
    returns on every batch that has these entries, and on a shorter batch it
    reads past the end. *)
Theorem scheduler_reads_batchsize (batch : list request) :
  is_Some (scheduler batch) ↔ BATCHSIZE ≤ length batch.
Proof.
  split.
  - intros [o Ho]. destruct (decide (BATCHSIZE ≤ length batch)); [done|].
    unfold scheduler in Ho. rewrite alias_short in Ho by lia. done.
  - intros Hb. destruct (scheduler_groups batch Hb) as (o & Ho & _). eauto.
Qed.

Section grouping_edges.
Context {A K V : Type} `{!EqDecision K} (key : A → K) (val : A → V).

(** Items that all have the same key make one group. *)
Lemma grouped_one_key l k :
  l ≠ [] → (∀ a, a ∈ l → key a = k) →
  grouped key val l = [(k, val <$> l)].
Proof.
  induction l as [|a l IH] using rev_ind; [done|]. intros _ Hk.
  rewrite grouped_snoc, fmap_app.
  assert (key a = k) as Ha.
  { apply Hk, elem_of_app. right. by apply list_elem_of_singleton. }
  destruct l as [|a0 l].
  - unfold group_add. simpl. by rewrite Ha.
  - rewrite IH by (done || (intros; apply Hk, elem_of_app; by left)).
    unfold group_add. simpl. by rewrite decide_True by done.
Qed.

(** Items whose keys are all different make a group each. *)
Lemma grouped_distinct_keys l :
  NoDup (key <$> l) → grouped key val l = (λ a, (key a, [val a])) <$> l.
Proof.
  induction l as [|a l IH] using rev_ind; [done|].
  rewrite fmap_app. intros (Hl & Ha & _)%NoDup_app.
  rewrite grouped_snoc, fmap_app, IH by done. unfold group_add.
  destruct (list_find _ _) as [[j b]|] eqn:Hf; [|done].
  apply list_find_Some in Hf as (Hj & Hb & _). exfalso.
  apply list_lookup_fmap_Some in Hj as (a' & -> & Ha'). simpl in Hb.
  apply (Ha (key a)); [|by apply list_elem_of_singleton].
  rewrite <-Hb. apply list_elem_of_fmap. exists a'. split; [done|].
  by eapply list_elem_of_lookup_2.
Qed.

End grouping_edges.

(** X2. When all the entries of the batch are for one row of one bank, there
    is one RowGroup, with the columns of the whole batch in their order (its
    [col] array is full), and one BankQueue, with that row. *)
Theorem single_row_batch (batch : list request) (bg b r : Z) :
  length batch = BATCHSIZE →
  (∀ q, q ∈ batch → key3 q = (bg, b, r)) →
  ∃ o, scheduler batch = Some o
    ∧ row_counter o = 1 ∧ bank_counter o = 1
    ∧ RowGroups o =
        [ {| rg_id := 1; rg_bank_group := bg; rg_bank := b; rg_row := r;
             rg_columns := col <$> batch |} ]
    ∧ BankQueues o =
        [ {| bq_number := 1; bq_bank_group := bg; bq_bank := b;
             bq_rows := [1] |} ].
Proof.
  intros Hb Hk. destruct (scheduler_enc batch) as (t & _ & Ho); [lia|].
  cbv zeta in Ho.
  assert (row_groups batch = [((bg, b, r), col <$> batch)]) as Hgs.
  { unfold row_groups. rewrite take_ge by lia. apply grouped_one_key; [|done].
    intros ->. unfold BATCHSIZE in Hb. done. }
  rewrite Hgs in Ho. eexists. split; [exact Ho|]. done.
Qed.

Lemma single_row_batch_witness :
  length one_row_batch = BATCHSIZE
  ∧ (∀ q, q ∈ one_row_batch → key3 q = (0, 0, 7)%Z)
  ∧ ∃ o, scheduler one_row_batch = Some o
    ∧ row_counter o = 1 ∧ bank_counter o = 1
    ∧ RowGroups o =
        [ {| rg_id := 1; rg_bank_group := 0; rg_bank := 0; rg_row := 7;
             rg_columns := col <$> one_row_batch |} ]
    ∧ BankQueues o =
        [ {| bq_number := 1; bq_bank_group := 0; bq_bank := 0;
             bq_rows := [1] |} ].
Proof.
  assert (∀ q, q ∈ one_row_batch → key3 q = (0, 0, 7)%Z) as H.
  { intros q Hq. unfold one_row_batch in Hq.
    repeat (apply elem_of_cons in Hq as [->|Hq]; [reflexivity|]).
    by apply elem_of_nil in Hq. }
  split_and!; [reflexivity|exact H|].
  apply (single_row_batch one_row_batch 0 0 7); [reflexivity|exact H].
Defined.

(** X3. When the entries of the batch are for rows that are all different,
    every entry opens a RowGroup of its own: [batch_aliased] is full, and the
    [i]-th RowGroup is the [i]-th entry with its one column. *)
Theorem distinct_rows_batch (batch : list request) :
  length batch = BATCHSIZE →
  NoDup (key3 <$> batch) →
  ∃ o, scheduler batch = Some o
    ∧ row_counter o = BATCHSIZE
    ∧ RowGroups o =
        imap (λ i q, {| rg_id := i + 1; rg_bank_group := bank_group q;
                        rg_bank := bank q; rg_row := row q;
                        rg_columns := [col q] |}) batch.
Proof.
  intros Hb Hnd. destruct (scheduler_enc batch) as (t & _ & Ho); [lia|].
  cbv zeta in Ho.
  assert (row_groups batch = (λ q, (key3 q, [col q])) <$> batch) as Hgs.
  { unfold row_groups. rewrite take_ge by lia. by apply grouped_distinct_keys. }
  rewrite Hgs in Ho. eexists. split; [exact Ho|]. simpl.
  split; [by rewrite length_fmap|]. by rewrite imap_fmap.
Qed.

Lemma distinct_rows_batch_witness :
  length distinct_batch = BATCHSIZE
  ∧ NoDup (key3 <$> distinct_batch)
  ∧ ∃ o, scheduler distinct_batch = Some o
    ∧ row_counter o = BATCHSIZE
    ∧ RowGroups o =
        imap (λ i q, {| rg_id := i + 1; rg_bank_group := bank_group q;
                        rg_bank := bank q; rg_row := row q;
                        rg_columns := [col q] |}) distinct_batch.
Proof.
  assert (NoDup (key3 <$> distinct_batch)) as H by compute_done.
  split_and!; [reflexivity|exact H|].
  apply (distinct_rows_batch distinct_batch); [reflexivity|exact H].
Defined.

Section grouping_steps.
Context {A K V : Type} `{!EqDecision K} (key : A → K) (val : A → V).

Lemma group_add_nil a : group_add key val [] a = [(key a, [val a])].
Proof. done. Qed.

Lemma group_add_cons b bs a :
  group_add key val (b :: bs) a =
    if decide (b.1 = key a) then (b.1, b.2 ++ [val a]) :: bs
    else b :: group_add key val bs a.
Proof.
  unfold group_add. simpl. case_decide; [done|].
  by destruct (list_find _ bs) as [[j c]|].
Qed.

(** Adding an item keeps every group where it is, with its key, and with
    the values it had at the front of its values. *)
Lemma group_add_extends bs a i b :
  bs !! i = Some b →
  ∃ b', group_add key val bs a !! i = Some b'
        ∧ b'.1 = b.1 ∧ b.2 `prefix_of` b'.2.
Proof.
  revert i. induction bs as [|c bs IH]; intros i Hi; [done|].
  rewrite group_add_cons. destruct i as [|i]; simpl in Hi.
  - injection Hi as ->. case_decide; simpl.
    + eexists. split_and!; [done|done|]. by apply prefix_app_r.
    + eexists. by split_and!.
  - case_decide; simpl; [by eexists|]. by apply IH.
Qed.

Lemma foldl_group_add_extends l : ∀ bs i b,
  bs !! i = Some b →
  ∃ b', foldl (group_add key val) bs l !! i = Some b'
        ∧ b'.1 = b.1 ∧ b.2 `prefix_of` b'.2.
Proof.
  induction l as [|a l IH]; intros bs i b Hi; simpl.
  - eexists. by split_and!.
  - destruct (group_add_extends bs a i b Hi) as (b1 & H1 & Hk1 & Hp1).
    destruct (IH _ i b1 H1) as (b2 & H2 & Hk2 & Hp2).
    exists b2. split_and!; [done|congruence|by etrans].
Qed.

End grouping_steps.

Lemma print_row_enc gs i g :
  gs !! i = Some g → print_row (enc_rows gs) i = Some (view_row i g).
Proof.
  intros Hg. unfold print_row. rewrite load_enc_rows, Hg. simpl.
  unfold enc_cols. rewrite mapM_load_enc, imap_snd. done.
Qed.

(** X4. The row aliaser only appends. What [batch_aliased] holds after [n]
    iterations is still there when the call ends: every RowGroup is in the
    same slot with the same id, bank group, bank and row, and the columns it
    had are the first of its columns. *)
Theorem aliaser_appends (batch : list request) (n : nat) :
  BATCHSIZE ≤ length batch →
  n ≤ BATCHSIZE →
  ∃ ba rc t o,
    alias_after batch n = Some (ba, rc, t)
    ∧ scheduler batch = Some o
    ∧ rc ≤ row_counter o
    ∧ ∀ i, i < rc →
        ∃ g0 g, print_row ba i = Some g0
          ∧ RowGroups o !! i = Some g
          ∧ rg_id g0 = rg_id g
          ∧ row_key g0 = row_key g
          ∧ rg_columns g0 `prefix_of` rg_columns g.
Proof.
  intros Hb Hn.
  destruct (alias_prefix batch n) as (t & Hloop); [lia..|].
  destruct (scheduler_enc batch Hb) as (t' & _ & Ho).
  cbv zeta in Hloop, Ho.
  set (gs0 := grouped key3 col (take n batch)) in *.
  assert (row_groups batch
          = foldl (group_add key3 col) gs0 (drop n (take BATCHSIZE batch)))
    as Hgs.
  { unfold row_groups, gs0, grouped. rewrite <-foldl_app. f_equal.
    rewrite <-(take_drop n (take BATCHSIZE batch)) at 1.
    f_equal. rewrite take_take. f_equal. lia. }
  assert (∀ i g0, gs0 !! i = Some g0 →
            ∃ g, row_groups batch !! i = Some g
                 ∧ g.1 = g0.1 ∧ g0.2 `prefix_of` g.2) as Hext.
  { intros i g0 Hi. rewrite Hgs. by apply foldl_group_add_extends. }
  eexists _, _, _, _. split; [exact Hloop|]. split; [exact Ho|]. simpl.
  split.
  - destruct (decide (length gs0 = 0)) as [->|Hne]; [lia|].
    destruct (lookup_lt_is_Some_2 gs0 (length gs0 - 1)) as [g0 Hg0]; [lia|].
    destruct (Hext _ _ Hg0) as (g & Hg%lookup_lt_Some & _). lia.
  - intros i Hi. destruct (lookup_lt_is_Some_2 gs0 i Hi) as [g0 Hg0].
    destruct (Hext _ _ Hg0) as (g & Hg & Hk & Hp).
    exists (view_row i g0), (view_row i g).
    rewrite (print_row_enc _ _ _ Hg0), list_lookup_imap, Hg. simpl.
    unfold row_key. simpl. by rewrite Hk.
Qed.

Lemma aliaser_appends_witness :
  BATCHSIZE ≤ length main_batch ∧ 2 ≤ BATCHSIZE
  ∧ ∃ ba rc t o,
      alias_after main_batch 2 = Some (ba, rc, t)
      ∧ scheduler main_batch = Some o
      ∧ rc ≤ row_counter o
      ∧ ∀ i, i < rc →
          ∃ g0 g, print_row ba i = Some g0
            ∧ RowGroups o !! i = Some g
            ∧ rg_id g0 = rg_id g
            ∧ row_key g0 = row_key g
            ∧ rg_columns g0 `prefix_of` rg_columns g.
Proof.
  split_and!; [vm_compute; lia..|].
  apply (aliaser_appends main_batch 2); vm_compute; lia.
Defined.



(** X6. Every entry and every row group is counted once: the listings have
    [row_counter] and [bank_counter] lines, the column counts of the
    RowGroups add up to [BATCHSIZE], and the row counts of the BankQueues add
    up to [row_counter]. *)
Theorem counts_add_up (batch : list request) :
  BATCHSIZE ≤ length batch →
  ∃ o, scheduler batch = Some o
    ∧ length (RowGroups o) = row_counter o
    ∧ length (BankQueues o) = bank_counter o
    ∧ sum_list_with (length ∘ rg_columns) (RowGroups o) = BATCHSIZE
    ∧ sum_list_with (length ∘ bq_rows) (BankQueues o) = row_counter o.
Proof.
  intros Hb. destruct (scheduler_enc batch Hb) as (t & _ & Ho).
  cbv zeta in Ho. eexists. split; [exact Ho|]. simpl.
  rewrite !length_imap.
  rewrite (sum_list_with_imap _ (λ g, length g.2)) by done.
  rewrite (sum_list_with_imap _ (λ b, length b.2)) by done.
  split_and!; [done|done|..].
  - fold (held (row_groups batch)). unfold row_groups.
    rewrite grouped_held, length_take. lia.
  - fold (held (bank_queues (imap view_row (row_groups batch)))).
    unfold bank_queues. by rewrite grouped_held, length_imap.
Qed.

Lemma counts_add_up_witness :
  BATCHSIZE ≤ length main_batch
  ∧ ∃ o, scheduler main_batch = Some o
    ∧ length (RowGroups o) = row_counter o
    ∧ length (BankQueues o) = bank_counter o
    ∧ sum_list_with (length ∘ rg_columns) (RowGroups o) = BATCHSIZE
    ∧ sum_list_with (length ∘ bq_rows) (BankQueues o) = row_counter o.
Proof.
  split; [vm_compute; lia|].
  apply (counts_add_up main_batch). vm_compute. lia.
Defined.

(** Filtering keeps the order of a list. *)
Lemma filter_lookup_lt {A : Type} (P : A → Prop) `{!∀ x, Decision (P x)}
    (l : list A) : ∀ i j x y,
  i < j → filter P l !! i = Some x → filter P l !! j = Some y →
  ∃ i' j', i' < j' ∧ l !! i' = Some x ∧ l !! j' = Some y.
Proof.
  induction l as [|a l IH]; intros i j x y Hij Hi Hj; [done|].
  rewrite filter_cons in Hi, Hj. destruct (decide (P a)) as [Ha|Ha].
  - destruct j as [|j]; [lia|]. simpl in Hj. destruct i as [|i]; simpl in Hi.
    + injection Hi as ->.
      apply list_elem_of_lookup_2, list_elem_of_filter in Hj as [_ Hy].
      apply list_elem_of_lookup_1 in Hy as [j' Hj'].
      exists 0, (S j'). split_and!; [lia|done|done].
    + destruct (IH i j x y) as (i' & j' & ? & ? & ?); [lia|done|done|].
      exists (S i'), (S j'). split_and!; [lia|done|done].
  - destruct (IH i j x y) as (i' & j' & ? & ? & ?); [lia|done|done|].
    exists (S i'), (S j'). split_and!; [lia|done|done].
Qed.

(** X7. The ids a BankQueue lists refer to its row groups: every id in
    [rows] is between 1 and [row_counter], it is the id of the RowGroup in
    slot [id - 1], and that RowGroup has the bank group and bank of the
    queue. No BankQueue is empty, the ids of a BankQueue are strictly
    increasing, and an earlier BankQueue starts with a smaller id than a
    later one. *)
Theorem bank_rows_refer_to_row_groups (batch : list request) :
  BATCHSIZE ≤ length batch →
  ∃ o, scheduler batch = Some o
    ∧ (∀ b, b ∈ BankQueues o →
         bq_rows b ≠ []
         ∧ (∀ id, id ∈ bq_rows b →
              1 ≤ id ≤ row_counter o
              ∧ ∃ g, RowGroups o !! (id - 1) = Some g
                     ∧ rg_id g = id ∧ bank_key g = queue_key b)
         ∧ (∀ i j x y, i < j →
              bq_rows b !! i = Some x → bq_rows b !! j = Some y → x < y))
    ∧ (∀ n m b b' x y, n < m →
         BankQueues o !! n = Some b → BankQueues o !! m = Some b' →
         head (bq_rows b) = Some x → head (bq_rows b') = Some y → x < y).
Proof.
  intros Hb. destruct (scheduler_enc batch Hb) as (t & _ & Ho).
  cbv zeta in Ho.
  set (gs := row_groups batch) in *.
  set (rows := imap view_row gs) in *.
  pose proof (bank_grouping rows) as [Hnd Hkeys Horder Hvals].
  set (banks := imap view_bank (bank_queues rows)) in *.
  assert (∀ i g, rows !! i = Some g → rg_id g = i + 1) as Hid
    by apply lookup_view_row.
  assert (∀ b id, b ∈ banks → id ∈ bq_rows b →
            ∃ i g, rows !! i = Some g ∧ id = i + 1
                   ∧ bank_key g = queue_key b) as Hin.
  { intros b id Hbk. rewrite (Hvals b Hbk).
    intros (g & -> & [Hk (i & Hi)%list_elem_of_lookup_1]%list_elem_of_filter)
             %list_elem_of_fmap.
    exists i, g. split_and!; [done|by apply Hid|done]. }
  assert (∀ b i j x y, b ∈ banks → i < j →
            bq_rows b !! i = Some x → bq_rows b !! j = Some y → x < y)
    as Hsorted.
  { intros b i j x y Hbk Hij. rewrite (Hvals b Hbk), !list_lookup_fmap.
    destruct (filter _ rows !! i) as [g|] eqn:Hgi; [|done].
    destruct (filter _ rows !! j) as [g'|] eqn:Hgj; [|done].
    simpl. intros [= <-] [= <-].
    destruct (filter_lookup_lt _ rows i j g g' Hij Hgi Hgj)
      as (i' & j' & Hij' & Hi' & Hj').
    rewrite (Hid _ _ Hi'), (Hid _ _ Hj'). lia. }
  eexists. split; [exact Ho|]. simpl. fold gs. fold rows. fold banks.
  split.
  - intros b Hbk. split_and!.
    + assert (queue_key b ∈ bank_key <$> rows)
        as (g & Hk & Hg)%list_elem_of_fmap.
      { apply Hkeys, list_elem_of_fmap. eauto. }
      rewrite (Hvals b Hbk). intros Hnil%fmap_nil_inv.
      eapply (filter_nil_not_elem_of _ _ g Hnil); done.
    + intros id (i & g & Hi & -> & Hk)%(Hin b); [|done].
      pose proof (lookup_lt_Some _ _ _ Hi) as Hlt.
      unfold rows in Hlt. rewrite length_imap in Hlt.
      split; [lia|]. exists g. replace (i + 1 - 1) with i by lia.
      split_and!; [done|by apply Hid|done].
    + intros i j x y. by apply Hsorted.
  - intros n m b b' x y Hnm Hn Hm Hx Hy.
    pose proof (list_elem_of_lookup_2 _ _ _ Hn) as Hbk.
    pose proof (list_elem_of_lookup_2 _ _ _ Hm) as Hbk'.
    destruct (Horder n m b b' Hnm Hn Hm) as (i & g & Hi & Hk & Hlater).
    rewrite head_lookup in Hx, Hy.
    assert (i + 1 < y) as Hy'.
    { destruct (Hin b' y Hbk') as (i' & g' & Hi' & -> & Hk');
        [by eapply list_elem_of_lookup_2|].
      pose proof (Hlater i' g' Hi' Hk'). lia. }
    assert (i + 1 ∈ bq_rows b) as (j & Hj)%list_elem_of_lookup_1.
    { rewrite (Hvals b Hbk). apply list_elem_of_fmap. exists g.
      split; [by rewrite (Hid _ _ Hi)|].
      apply list_elem_of_filter. split; [done|].
      by eapply list_elem_of_lookup_2. }
    destruct j as [|j]; [simplify_eq; lia|].
    pose proof (Hsorted b 0 (S j) x (i + 1) Hbk ltac:(lia) Hx Hj). lia.
Qed.

Lemma bank_rows_refer_to_row_groups_witness :
  BATCHSIZE ≤ length main_batch
  ∧ ∃ o, scheduler main_batch = Some o
    ∧ (∀ b, b ∈ BankQueues o →
         bq_rows b ≠ []
         ∧ (∀ id, id ∈ bq_rows b →
              1 ≤ id ≤ row_counter o
              ∧ ∃ g, RowGroups o !! (id - 1) = Some g
                     ∧ rg_id g = id ∧ bank_key g = queue_key b)
         ∧ (∀ i j x y, i < j →
              bq_rows b !! i = Some x → bq_rows b !! j = Some y → x < y))
    ∧ (∀ n m b b' x y, n < m →
         BankQueues o !! n = Some b → BankQueues o !! m = Some b' →
         head (bq_rows b) = Some x → head (bq_rows b') = Some y → x < y).
Proof.
  split; [vm_compute; lia|].
  apply (bank_rows_refer_to_row_groups main_batch). vm_compute. lia.
Defined.

Lemma filter_fmap {A B : Type} (f : A → B) (P : B → Prop)
    `{!∀ x, Decision (P x)} (l : list A) :
  filter P (f <$> l) = f <$> filter (λ a, P (f a)) l.
Proof.
  induction l as [|a l IH]; [done|]. rewrite fmap_cons, !filter_cons.
  case_decide; by rewrite ?fmap_cons, IH.
Qed.

(** X8. The order of the entries of a batch decides the order of the groups
    and nothing else: two batches with the same entries in another order
    give the same RowGroups up to their order and the order of their
    columns, and the same BankQueues up to their order, with as many rows
    each. *)
Theorem grouping_up_to_order (batch batch' : list request) :
  length batch = BATCHSIZE →
  batch ≡ₚ batch' →
  ∃ o o', scheduler batch = Some o ∧ scheduler batch' = Some o'
    ∧ row_key <$> RowGroups o ≡ₚ row_key <$> RowGroups o'
    ∧ (∀ g g', g ∈ RowGroups o → g' ∈ RowGroups o' →
         row_key g = row_key g' → rg_columns g ≡ₚ rg_columns g')
    ∧ queue_key <$> BankQueues o ≡ₚ queue_key <$> BankQueues o'
    ∧ (∀ b b', b ∈ BankQueues o → b' ∈ BankQueues o' →
         queue_key b = queue_key b' → length (bq_rows b) = length (bq_rows b')).
Proof.
  intros Hb Hperm. pose proof (Permutation_length Hperm) as Hb'.
  destruct (scheduler_groups batch) as (o & Ho & _ & _ & Hgr & Hgb & _); [lia|].
  destruct (scheduler_groups batch') as (o' & Ho' & _ & _ & Hgr' & Hgb' & _);
    [lia|].
  rewrite take_ge in Hgr, Hgr' by lia.
  destruct Hgr as [Hnd Hkeys _ Hvals], Hgr' as [Hnd' Hkeys' _ Hvals'].
  destruct Hgb as [Hndb Hkeysb _ Hvalsb], Hgb' as [Hndb' Hkeysb' _ Hvalsb'].
  assert (row_key <$> RowGroups o ≡ₚ row_key <$> RowGroups o') as Hrows.
  { apply NoDup_Permutation; [done..|]. intros k.
    by rewrite Hkeys, Hkeys', Hperm. }
  exists o, o'. split_and!; [done|done|done|..].
  - intros g g' Hg Hg' Hk. rewrite (Hvals g Hg), (Hvals' g' Hg'), Hk.
    by rewrite Hperm.
  - apply NoDup_Permutation; [done..|]. intros k.
    rewrite Hkeysb, Hkeysb'.
    change bank_key with (fst ∘ row_key).
    by rewrite !list_fmap_compose, Hrows.
  - intros b b' Hbk Hbk' Hk. rewrite (Hvalsb b Hbk), (Hvalsb' b' Hbk'), Hk.
    rewrite !length_fmap.
    assert (∀ rows,
              length (filter (λ g, bank_key g = queue_key b') rows)
              = length (filter (λ k : Z * Z * Z, k.1 = queue_key b')
                          (row_key <$> rows))) as Hcount.
    { intros rows. by rewrite filter_fmap, length_fmap. }
    by rewrite !Hcount, Hrows.
Qed.

Lemma grouping_up_to_order_witness :
  length main_batch = BATCHSIZE
  ∧ main_batch ≡ₚ reverse main_batch
  ∧ ∃ o o', scheduler main_batch = Some o
    ∧ scheduler (reverse main_batch) = Some o'
    ∧ row_key <$> RowGroups o ≡ₚ row_key <$> RowGroups o'
    ∧ (∀ g g', g ∈ RowGroups o → g' ∈ RowGroups o' →
         row_key g = row_key g' → rg_columns g ≡ₚ rg_columns g')
    ∧ queue_key <$> BankQueues o ≡ₚ queue_key <$> BankQueues o'
    ∧ (∀ b b', b ∈ BankQueues o → b' ∈ BankQueues o' →
         queue_key b = queue_key b' → length (bq_rows b) = length (bq_rows b')).
Proof.
  assert (main_batch ≡ₚ reverse main_batch) as H
    by (symmetry; apply reverse_Permutation).
  split_and!; [reflexivity|exact H|].
  apply (grouping_up_to_order main_batch (reverse main_batch));
    [reflexivity|exact H].
Defined.

Section grouping_shape.
Context {A A' K V V' : Type} `{!EqDecision K}.
Context (key : A → K) (val : A → V) (key' : A' → K) (val' : A' → V').

Lemma group_add_shape bs bs' a a' :
  Forall2 same_shape bs bs' → key a = key' a' →
  Forall2 same_shape (group_add key val bs a) (group_add key' val' bs' a').
Proof.
  intros Hbs Hk. induction Hbs as [|b b' bs bs' [Hb1 Hb2] Hbs IH].
  - rewrite !group_add_nil. constructor; [|constructor]. by split.
  - rewrite !group_add_cons, <-Hk, <-Hb1. case_decide.
    + constructor; [|done]. split; [done|]. simpl. rewrite !length_app, Hb2. done.
    + constructor; [by split|done].
Qed.

Lemma grouped_shape l l' :
  Forall2 (λ a a', key a = key' a') l l' →
  Forall2 same_shape (grouped key val l) (grouped key' val' l').
Proof.
  unfold grouped.
  assert (Forall2 same_shape (@nil (K * list V)) (@nil (K * list V')))
    as Hnil by apply List.Forall2_nil.
  revert Hnil. generalize (@nil (K * list V)) (@nil (K * list V')).
  intros bs bs' Hbs Hl. revert bs bs' Hbs.
  induction Hl as [|a a' l l' Hk _ IH]; intros bs bs' Hbs; [done|].
  simpl. apply IH. by apply group_add_shape.
Qed.

End grouping_shape.

(** X9. The columns are carried along and never looked at when grouping:
    two batches whose entries agree on bank group, bank and row give the
    same BankQueues, and RowGroups with the same ids, bank groups, banks and
    rows and as many columns each, whatever the column values. *)
Theorem columns_do_not_group (batch batch' : list request) :
  BATCHSIZE ≤ length batch →
  Forall2 (λ q q', key3 q = key3 q') batch batch' →
  ∃ o o', scheduler batch = Some o ∧ scheduler batch' = Some o'
    ∧ row_counter o = row_counter o'
    ∧ Forall2 (λ g g', rg_id g = rg_id g' ∧ row_key g = row_key g'
                       ∧ length (rg_columns g) = length (rg_columns g'))
        (RowGroups o) (RowGroups o')
    ∧ bank_counter o = bank_counter o'
    ∧ BankQueues o = BankQueues o'.
Proof.
  intros Hb Hsame. pose proof (Forall2_length _ _ _ Hsame) as Hlen.
  destruct (scheduler_enc batch) as (t & _ & Ho); [lia|].
  destruct (scheduler_enc batch') as (t' & _ & Ho'); [lia|].
  cbv zeta in Ho, Ho'.
  assert (Forall2 same_shape (row_groups batch) (row_groups batch'))
    as Hshape.
  { unfold row_groups. apply grouped_shape. by apply Forall2_take. }
  set (gs := row_groups batch) in *. set (gs' := row_groups batch') in *.
  assert (Forall2 (λ g g', rg_id g = rg_id g' ∧ row_key g = row_key g'
                           ∧ length (rg_columns g) = length (rg_columns g'))
            (imap view_row gs) (imap view_row gs')) as Hrows.
  { apply Forall2_same_length_lookup.
    split; [by rewrite !length_imap, (Forall2_length _ _ _ Hshape)|].
    intros i g g'. rewrite !list_lookup_imap.
    destruct (gs !! i) as [x|] eqn:Hx; [|done].
    destruct (gs' !! i) as [x'|] eqn:Hx'; [|done].
    intros [= <-] [= <-].
    destruct (Forall2_lookup_lr _ _ _ _ _ _ Hshape Hx Hx') as [Hk Hc].
    unfold row_key. simpl. by rewrite Hk, Hc. }
  assert (bank_queues (imap view_row gs) = bank_queues (imap view_row gs'))
    as Hbanks.
  { apply grouped_ext. eapply Forall2_impl; [exact Hrows|].
    intros g g' (Hid & Hk & _). split; [|done].
    unfold bank_key. unfold row_key in Hk. by injection Hk as -> -> _. }
  eexists _, _. split; [exact Ho|]. split; [exact Ho'|]. simpl.
  rewrite Hbanks. split_and!; [|done|done|done].
  apply (Forall2_length _ _ _ Hshape).
Qed.

Lemma columns_do_not_group_witness :
  BATCHSIZE ≤ length main_batch
  ∧ Forall2 (λ q q', key3 q = key3 q') main_batch zero_col_batch
  ∧ ∃ o o', scheduler main_batch = Some o
    ∧ scheduler zero_col_batch = Some o'
    ∧ row_counter o = row_counter o'
    ∧ Forall2 (λ g g', rg_id g = rg_id g' ∧ row_key g = row_key g'
                       ∧ length (rg_columns g) = length (rg_columns g'))
        (RowGroups o) (RowGroups o')
    ∧ bank_counter o = bank_counter o'
    ∧ BankQueues o = BankQueues o'.
Proof.
  assert (Forall2 (λ q q', key3 q = key3 q') main_batch zero_col_batch) as H
    by (repeat constructor).
  split_and!; [vm_compute; lia|exact H|].
  apply (columns_do_not_group main_batch zero_col_batch);
    [vm_compute; lia|exact H].
Defined.

(** X10. The two passes together group the batch by bank: there is one
    BankQueue for every (bank group, bank) that an entry of the batch has,
    and the BankQueues are in the order in which their (bank group, bank) is
    first seen in the batch. *)
Theorem bank_queues_follow_batch (batch : list request) :
  length batch = BATCHSIZE →
  ∃ o, scheduler batch = Some o
    ∧ NoDup (queue_key <$> BankQueues o)
    ∧ (∀ k, k ∈ queue_key <$> BankQueues o ↔ k ∈ bank_of <$> batch)
    ∧ (∀ n m b b', n < m →
         BankQueues o !! n = Some b → BankQueues o !! m = Some b' →
         ∃ i q, batch !! i = Some q ∧ bank_of q = queue_key b
           ∧ ∀ i' q', batch !! i' = Some q' → bank_of q' = queue_key b' →
                      i < i').
Proof.
  intros Hb.
  destruct (scheduler_groups batch) as (o & Ho & _ & _ & Hgr & Hgb & _); [lia|].
  rewrite take_ge in Hgr by lia.
  pose proof Hgr as [Hnd Hkeys Horder Hvals].
  pose proof Hgb as [Hndb Hkeysb Horderb Hvalsb].
  assert (∀ g, bank_key g = (row_key g).1) as Hbk by done.
  assert (∀ q, bank_of q = (key3 q).1) as Hbo by done.
  exists o. split_and!; [done|done|..].
  - intros k. rewrite Hkeysb. split.
    + intros (g & -> & Hg)%list_elem_of_fmap.
      assert (row_key g ∈ key3 <$> batch) as (q & Hq & Hin)%list_elem_of_fmap.
      { apply Hkeys, list_elem_of_fmap. eauto. }
      apply list_elem_of_fmap. exists q. split; [|done].
      by rewrite Hbk, Hbo, Hq.
    + intros (q & -> & Hq)%list_elem_of_fmap.
      assert (key3 q ∈ row_key <$> RowGroups o)
        as (g & Hg & Hin)%list_elem_of_fmap.
      { apply Hkeys, list_elem_of_fmap. eauto. }
      apply list_elem_of_fmap. exists g. split; [|done].
      by rewrite Hbk, Hbo, Hg.
  - intros n m b b' Hnm Hn Hm.
    destruct (Horderb n m b b' Hnm Hn Hm) as (i & g & Hi & Hk & Hlater).
    assert (is_Some (list_find (λ q, key3 q = row_key g) batch))
      as [[j q] Hfind].
    { assert (row_key g ∈ key3 <$> batch) as (q & Hq & Hin)%list_elem_of_fmap.
      { apply Hkeys, list_elem_of_fmap. exists g. split; [done|].
        by eapply list_elem_of_lookup_2. }
      by eapply list_find_elem_of. }
    apply list_find_Some in Hfind as (Hj & Hq & Hleast).
    exists j, q. split_and!; [done|by rewrite Hbo, Hq, <-Hbk|].
    intros j' q' Hj' Hk'.
    destruct (grouping_listed _ _ _ _ _ _ q' Hgr
                (list_elem_of_lookup_2 _ _ _ Hj'))
      as (i' & g' & Hi' & Hg' & _).
    assert (i < i') as Hii'.
    { apply (Hlater i' g' Hi'). by rewrite Hbk, Hg', <-Hbo. }
    destruct (Horder i i' g g' Hii' Hi Hi') as (i0 & q0 & Hi0 & Hq0 & Hlt).
    pose proof (Hlt j' q' Hj' (eq_sym Hg')) as Hj0.
    destruct (decide (j ≤ i0)) as [|Hgt]; [lia|].
    exfalso. apply (Hleast i0 q0 Hi0); [lia|done].
Qed.

Lemma bank_queues_follow_batch_witness :
  length main_batch = BATCHSIZE
  ∧ ∃ o, scheduler main_batch = Some o
    ∧ NoDup (queue_key <$> BankQueues o)
    ∧ (∀ k, k ∈ queue_key <$> BankQueues o ↔ k ∈ bank_of <$> main_batch)
    ∧ (∀ n m b b', n < m →
         BankQueues o !! n = Some b → BankQueues o !! m = Some b' →
         ∃ i q, main_batch !! i = Some q ∧ bank_of q = queue_key b
           ∧ ∀ i' q', main_batch !! i' = Some q' → bank_of q' = queue_key b' →
                      i < i').
Proof.
  split; [reflexivity|].
  apply (bank_queues_follow_batch main_batch). reflexivity.
Defined.

(** X11. The first entry of the batch finds no row group to search
    ([row_counter] is 0) and opens RowGroup 1, which its column heads; that
    RowGroup opens BankQueue 1, which its id heads. *)
Theorem first_entry_opens_first_groups (batch : list request) (q : request) :
  BATCHSIZE ≤ length batch →
  batch !! 0 = Some q →
  ∃ o g b, scheduler batch = Some o
    ∧ RowGroups o !! 0 = Some g
    ∧ rg_id g = 1 ∧ row_key g = key3 q ∧ head (rg_columns g) = Some (col q)
    ∧ BankQueues o !! 0 = Some b
    ∧ bq_number b = 1 ∧ queue_key b = bank_of q ∧ head (bq_rows b) = Some 1.
Proof.
  intros Hb Hq. destruct (scheduler_enc batch Hb) as (t & _ & Ho).
  cbv zeta in Ho.
  assert (∃ cs, row_groups batch !! 0 = Some (key3 q, col q :: cs))
    as [cs Hg].
  { unfold row_groups, grouped. destruct batch as [|q0 batch]; [done|].
    injection Hq as ->. unfold BATCHSIZE. simpl.
    destruct (foldl_group_add_extends key3 col (take 4 batch)
                [(key3 q, [col q])] 0 _ eq_refl)
      as ([k vs] & H0 & Hk & [cs Hcs]).
    simpl in Hk, Hcs. subst. rewrite group_add_nil. eauto. }
  remember (row_groups batch) as gs eqn:Hgs.
  remember (imap view_row gs) as rows eqn:Hrows.
  assert (rows !! 0 = Some (view_row 0 (key3 q, col q :: cs))) as Hrow.
  { by rewrite Hrows, list_lookup_imap, Hg. }
  assert (∃ ids, bank_queues rows !! 0 = Some (bank_of q, 1 :: ids))
    as [ids Hbk].
  { clear Ho Hrows. destruct rows as [|g rows]; [done|].
    injection Hrow as ->. unfold bank_queues, grouped. simpl.
    destruct (foldl_group_add_extends bank_key rg_id rows
                [(bank_of q, [1])] 0 _ eq_refl)
      as ([k vs] & H0 & Hk & [ids Hids]).
    simpl in Hk, Hids. subst. rewrite group_add_nil. eauto. }
  eexists _, _, _. split; [exact Ho|]. simpl.
  rewrite list_lookup_imap, Hbk, Hrow. simpl. by split_and!.
Qed.

Lemma first_entry_opens_first_groups_witness :
  BATCHSIZE ≤ length main_batch
  ∧ main_batch !! 0 = Some (Request 1 0 0 1 6)
  ∧ ∃ o g b, scheduler main_batch = Some o
    ∧ RowGroups o !! 0 = Some g
    ∧ rg_id g = 1 ∧ row_key g = key3 (Request 1 0 0 1 6)
    ∧ head (rg_columns g) = Some (col (Request 1 0 0 1 6))
    ∧ BankQueues o !! 0 = Some b
    ∧ bq_number b = 1 ∧ queue_key b = bank_of (Request 1 0 0 1 6)
    ∧ head (bq_rows b) = Some 1.
Proof.
  split_and!; [vm_compute; lia|reflexivity|].
  apply (first_entry_opens_first_groups main_batch (Request 1 0 0 1 6));
    [vm_compute; lia|reflexivity].
Defined.

(** X12. The invariant of the row aliaser's outer loop: after [n]
    iterations, [batch_aliased] lists the grouping of the first [n] entries
    of the batch by bank group, bank and row, with ids 1, 2, ... and [n]
    columns in all. *)
Theorem aliaser_invariant (batch : list request) (n : nat) :
  n ≤ BATCHSIZE →
  n ≤ length batch →
  ∃ ba rc t rows,
    alias_after batch n = Some (ba, rc, t)
    ∧ mapM (print_row ba) (seq 0 rc) = Some rows
    ∧ grouping key3 col row_key rg_columns (take n batch) rows
    ∧ (∀ i g, rows !! i = Some g → rg_id g = i + 1)
    ∧ sum_list_with (length ∘ rg_columns) rows = n.
Proof.
  intros Hn Hb. destruct (alias_prefix batch n Hn Hb) as (t & Hloop).
  cbv zeta in Hloop. eexists _, _, _, _. split; [exact Hloop|].
  split; [apply print_rows_enc|]. split_and!.
  - apply grouped_grouping; by intros i [[[??]?]?].
  - apply lookup_view_row.
  - rewrite (sum_list_with_imap _ (λ g, length g.2)) by done.
    fold (held (grouped key3 col (take n batch))).
    rewrite grouped_held, length_take. lia.
Qed.

Lemma aliaser_invariant_witness :
  3 ≤ BATCHSIZE ∧ 3 ≤ length main_batch
  ∧ ∃ ba rc t rows,
      alias_after main_batch 3 = Some (ba, rc, t)
      ∧ mapM (print_row ba) (seq 0 rc) = Some rows
      ∧ grouping key3 col row_key rg_columns (take 3 main_batch) rows
      ∧ (∀ i g, rows !! i = Some g → rg_id g = i + 1)
      ∧ sum_list_with (length ∘ rg_columns) rows = 3.
Proof.
  split_and!; [vm_compute; lia..|].
  apply (aliaser_invariant main_batch 3); vm_compute; lia.
Defined.

(** X13. The invariant of the bank conflict grouper's outer loop: after [n]
    iterations, [row_conflicts] lists the grouping of the first [n]
    RowGroups by bank group and bank, with [n] rows in all. *)
Theorem grouper_invariant (batch : list request) (n : nat) :
  BATCHSIZE ≤ length batch →
  ∃ o, scheduler batch = Some o
    ∧ (n ≤ row_counter o →
       ∃ rc bc t banks,
         conflicts_after (batch_aliased o) (row_counter o) n = Some (rc, bc, t)
         ∧ mapM (print_bank rc) (seq 0 bc) = Some banks
         ∧ grouping bank_key rg_id queue_key bq_rows
             (take n (RowGroups o)) banks
         ∧ sum_list_with (length ∘ bq_rows) banks = n).
Proof.
  intros Hb. destruct (scheduler_enc batch Hb) as (t & _ & Ho).
  cbv zeta in Ho. eexists. split; [exact Ho|]. simpl. intros Hn.
  set (gs := row_groups batch) in *.
  assert (length gs ≤ BATCHSIZE) as Hgs.
  { unfold gs, row_groups.
    pose proof (held_length _ (grouped_nonempty key3 col (take BATCHSIZE batch)))
      as Hlen.
    rewrite grouped_held, length_take in Hlen. lia. }
  destruct (conflicts_prefix gs n Hgs Hn) as (t' & Hloop).
  cbv zeta in Hloop.
  assert (grouped key2 rr_id (take n (imap enc_row gs))
          = grouped bank_key rg_id (take n (imap view_row gs))) as Heq.
  { apply grouped_ext, Forall2_take, Forall2_same_length_lookup.
    split; [by rewrite !length_imap|].
    intros i r g. rewrite !list_lookup_imap.
    destruct (gs !! i) as [x|]; [|done]. by intros [= <-] [= <-]. }
  rewrite Heq in Hloop.
  eexists _, _, _, _. split; [exact Hloop|].
  split; [apply print_banks_enc|]. split.
  - apply grouped_grouping; by intros i [[??]?].
  - rewrite (sum_list_with_imap _ (λ b, length b.2)) by done.
    fold (held (grouped bank_key rg_id (take n (imap view_row gs)))).
    rewrite grouped_held, length_take, length_imap. lia.
Qed.

Lemma grouper_invariant_witness :
  BATCHSIZE ≤ length main_batch
  ∧ ∃ o, scheduler main_batch = Some o
    ∧ 2 ≤ row_counter o
    ∧ ∃ rc bc t banks,
        conflicts_after (batch_aliased o) (row_counter o) 2 = Some (rc, bc, t)
        ∧ mapM (print_bank rc) (seq 0 bc) = Some banks
        ∧ grouping bank_key rg_id queue_key bq_rows
            (take 2 (RowGroups o)) banks
        ∧ sum_list_with (length ∘ bq_rows) banks = 2.
Proof.
  split; [vm_compute; lia|].
  destruct (grouper_invariant main_batch 2) as (o & Ho & H); [vm_compute; lia|].
  assert (2 ≤ row_counter o) as Hrc.
  { vm_compute in Ho. injection Ho as <-. simpl. lia. }
  exists o. split_and!; [exact Ho|exact Hrc|exact (H Hrc)].
Defined.

(** [main] returns 0, after the three banners and the six lines of the two
    listings. *)
Example main_exit_status :
  main = Some (0%Z,
               Banner "ALIASED BATCH" :: (RowLine <$> main_rows)
               ++ Banner "BANK REQUESTS BATCH" :: (BankLine <$> main_banks)
               ++ [Banner "SCHEDULE:"]).
Proof. reflexivity. Qed.
